(** * A minimal perfect hash table over strings: [mph.go]

    The development embeds [Build], [nextPow2], [Lookup] and the [bySize]
    ordering of [mph.go] and proves the properties of the two-level table
    they construct.

    Conventions of the embedding.
    - Go's [int] is the 64-bit two's-complement integer, a [Z] wrapped by
      [wrap_int]; [uint32] is a [Z] reduced by [uint32].
    - A slice is a [list]; an index expression outside the slice panics,
      which [idx_get] and [idx_set] report as [Panic].
    - A loop without a bound takes the number of rounds it may run; running
      out of rounds is reported as [Spin].  For [Build] this is [fuel], the
      number of seeds it may try for one bucket.
    - A key, [string] or [[]byte] in the source, is a sequence of bytes: a
      [string] of 8-bit characters.  The last part of the file looks at the
      arrays behind [[]byte] keys.
    - [murmurHash] and [sort.Sort] are not defined in [mph.go]: the results
      hold for every hash into [uint32] ([Murmur]) and every sort within the
      contract of [sort.Sort] ([Sorter]).  To see the order in which Go's own
      [sort.Sort] leaves buckets of equal size, its run on a short slice is
      transcribed at the end of the file (module [sort]). *)

From Stdlib Require Import ZArith Lia.
From stdpp Require Import base tactics option list strings sorting.

Local Open Scope Z_scope.

(** ** Outcomes of a computation *)

Inductive res (A : Type) : Type :=
  | Done (a : A)
  | Panic
  | Spin.
Arguments Done {A} a.
Arguments Panic {A}.
Arguments Spin {A}.

#[global] Instance res_ret : MRet res := fun A a => Done a.
#[global] Instance res_bind : MBind res := fun A B f m =>
  match m with
  | Done a => f a
  | Panic => Panic
  | Spin => Spin
  end.

Lemma bind_Done {A B} (m : res A) (f : A → res B) (b : B) :
  m ≫= f = Done b ↔ ∃ a, m = Done a ∧ f a = Done b.
Proof.
  split.
  - destruct m as [a| |]; simpl; intros E; try discriminate. by exists a.
  - intros (a & -> & E). exact E.
Qed.

(** ** Machine integers *)

Definition wrap_int (z : Z) : Z := (z + 2 ^ 63) mod 2 ^ 64 - 2 ^ 63.

Definition uint32 (z : Z) : Z := z mod 2 ^ 32.

Lemma wrap_int_small z : - 2 ^ 63 ≤ z < 2 ^ 63 → wrap_int z = z.
Proof. intros Hz. unfold wrap_int. rewrite Z.mod_small; lia. Qed.

Lemma uint32_small z : 0 ≤ z < 2 ^ 32 → uint32 z = z.
Proof. intros Hz. unfold uint32. by rewrite Z.mod_small. Qed.

Lemma uint32_range z : 0 ≤ uint32 z < 2 ^ 32.
Proof. unfold uint32. apply Z.mod_pos_bound. lia. Qed.

Lemma uint32_le z : 0 ≤ z → uint32 z ≤ z.
Proof. intros Hz. unfold uint32. apply Z.mod_le; lia. Qed.

(** ** Slices *)

Definition len {A} (l : list A) : Z := Z.of_nat (length l).

Definition make {A} (d : A) (n : Z) : res (list A) :=
  if n <? 0 then Panic else Done (replicate (Z.to_nat n) d).

Definition idx_get {A} (l : list A) (i : Z) : res A :=
  if i <? 0 then Panic
  else match l !! Z.to_nat i with
       | Some a => Done a
       | None => Panic
       end.

Definition idx_set {A} (l : list A) (i : Z) (a : A) : res (list A) :=
  if (i <? 0) || (len l <=? i) then Panic
  else Done (<[Z.to_nat i := a]> l).

Lemma idx_get_Done {A} (l : list A) i a :
  idx_get l i = Done a ↔ 0 ≤ i ∧ l !! Z.to_nat i = Some a.
Proof.
  unfold idx_get. destruct (Z.ltb_spec i 0).
  - split; [done | lia].
  - destruct (l !! Z.to_nat i) eqn:E; split; intros; simplify_eq;
      try done; destruct_and?; simplify_eq; done.
Qed.

Lemma idx_get_lt {A} (l : list A) i a : idx_get l i = Done a → 0 ≤ i < len l.
Proof.
  intros [Hi Hl]%idx_get_Done. apply lookup_lt_Some in Hl. unfold len. lia.
Qed.

Lemma idx_get_in_range {A} (l : list A) i :
  0 ≤ i < len l → ∃ a, idx_get l i = Done a.
Proof.
  intros Hi. unfold len in Hi.
  destruct (lookup_lt_is_Some_2 l (Z.to_nat i)) as [a Ha]; [lia|].
  exists a. apply idx_get_Done. split; [lia | done].
Qed.

Lemma idx_set_Done {A} (l l' : list A) i a :
  idx_set l i a = Done l' ↔ 0 ≤ i < len l ∧ l' = <[Z.to_nat i := a]> l.
Proof.
  unfold idx_set.
  destruct (Z.ltb_spec i 0), (Z.leb_spec (len l) i); simpl;
    split; intros; destruct_and?; simplify_eq; try done; try lia.
Qed.

(** ** [nextPow2]

    [for i := 1; ; i *= 2 { if i >= n { return i } }].  The product wraps
    in 64 bits: after 64 doublings [i] is 0 for good, so 66 rounds decide
    whether the loop returns at all. *)

Fixpoint nextPow2_loop (rounds : nat) (i n : Z) : res Z :=
  match rounds with
  | O => Spin
  | S r => if n <=? i then Done i else nextPow2_loop r (wrap_int (i * 2)) n
  end.

Definition nextPow2 (n : Z) : res Z := nextPow2_loop 66 1 n.

(** [leastPow2 n p]: [p] is the smallest power of two that is at least [n]. *)
Definition leastPow2 (n p : Z) : Prop :=
  ∃ k : nat, p = 2 ^ Z.of_nat k ∧ n ≤ p ∧ (k = O ∨ 2 ^ (Z.of_nat k - 1) < n).

Lemma nextPow2_loop_zero rounds n p :
  0 < n → nextPow2_loop rounds 0 n ≠ Done p.
Proof.
  intros Hn. induction rounds as [|r IH]; simpl; [done|].
  destruct (Z.leb_spec n 0); [lia|]. exact IH.
Qed.

Lemma nextPow2_loop_spec rounds (k : nat) n p :
  (k ≤ 62)%nat → (k = O ∨ 2 ^ (Z.of_nat k - 1) < n) →
  nextPow2_loop rounds (2 ^ Z.of_nat k) n = Done p → leastPow2 n p.
Proof.
  revert k. induction rounds as [|r IH]; intros k Hk Hmin; simpl; [done|].
  destruct (Z.leb_spec n (2 ^ Z.of_nat k)) as [Hle|Hlt].
  - intros [= <-]. by exists k.
  - destruct (decide (k = 62%nat)) as [->|Hk'].
    + (* the next product is 2^63, which wraps to the least [int] *)
      change (wrap_int (2 ^ Z.of_nat 62 * 2)) with (- 2 ^ 63).
      destruct r as [|r]; simpl; [done|].
      destruct (Z.leb_spec n (- 2 ^ 63)); [lia|].
      change (wrap_int (- 2 ^ 63 * 2)) with 0.
      intros E. apply nextPow2_loop_zero in E; [done|].
      assert (0 < 2 ^ Z.of_nat 62) by (apply Z.pow_pos_nonneg; lia). lia.
    + assert (2 ^ Z.of_nat k * 2 = 2 ^ Z.of_nat (S k)) as ->.
      { rewrite Nat2Z.inj_succ, Z.pow_succ_r; lia. }
      rewrite wrap_int_small.
      * apply IH; [lia|]. right.
        replace (Z.of_nat (S k) - 1) with (Z.of_nat k) by lia. done.
      * split.
        { assert (0 < 2 ^ Z.of_nat (S k)) by (apply Z.pow_pos_nonneg; lia). lia. }
        apply Z.pow_lt_mono_r; lia.
Qed.

Lemma nextPow2_spec n p : nextPow2 n = Done p → leastPow2 n p.
Proof. apply (nextPow2_loop_spec 66 0); [lia | by left]. Qed.

Lemma leastPow2_pos n p : leastPow2 n p → 1 ≤ p.
Proof.
  intros (k & -> & _). assert (0 < 2 ^ Z.of_nat k) by (apply Z.pow_pos_nonneg; lia).
  lia.
Qed.

Lemma nextPow2_loop_total rounds (k : nat) n :
  (k ≤ 62)%nat → (63 - k ≤ rounds)%nat → n ≤ 2 ^ 62 →
  ∃ p, nextPow2_loop rounds (2 ^ Z.of_nat k) n = Done p.
Proof.
  revert k. induction rounds as [|r IH]; intros k Hk Hr Hn; [lia|]. simpl.
  destruct (Z.leb_spec n (2 ^ Z.of_nat k)) as [Hle|Hlt]; [by eexists|].
  assert (k < 62)%nat as Hk'.
  { destruct (decide (k = 62%nat)) as [->|]; [|lia].
    change (2 ^ Z.of_nat 62) with (2 ^ 62) in Hlt. lia. }
  assert (2 ^ Z.of_nat k * 2 = 2 ^ Z.of_nat (S k)) as ->.
  { rewrite Nat2Z.inj_succ, Z.pow_succ_r; lia. }
  rewrite wrap_int_small.
  - apply IH; lia.
  - split.
    { assert (0 < 2 ^ Z.of_nat (S k)) by (apply Z.pow_pos_nonneg; lia). lia. }
    apply Z.pow_lt_mono_r; lia.
Qed.

(** [nextPow2] returns on every length up to [2^62]. *)
Lemma nextPow2_total n : n ≤ 2 ^ 62 → ∃ p, nextPow2 n = Done p.
Proof. intros Hn. apply (nextPow2_loop_total 66 0); [lia | lia | done]. Qed.

(** ** Masking: [h & mask] stays within the mask *)

Lemma land_mask_range h mask : 0 ≤ h → 0 ≤ mask → 0 ≤ Z.land h mask ≤ mask.
Proof.
  intros Hh Hm. split; [apply Z.land_nonneg; by left|].
  destruct h as [|p|p], mask as [|q|q]; try done; try lia.
  pose proof (N.land_le_r (N.pos p) (N.pos q)) as Hle.
  change (Z.land (Z.pos p) (Z.pos q)) with (Z.of_N (N.land (N.pos p) (N.pos q))).
  lia.
Qed.

(** ** The seeded hash

    [murmurHash] and the seed type [murmurSeed] are declared outside
    [mph.go].  The file uses [murmurHash] as a function from a seed and a key
    to a [uint32], converts seeds to and from the [uint32] entries of
    [level0], and starts a seed at its zero value: the hash is taken as any
    function into the [uint32] range, and a seed as a [uint32]. *)

Class Murmur := {
  murmurHash : Z → string → Z;
  murmurHash_range : ∀ seed s, 0 ≤ murmurHash seed s < 2 ^ 32
}.

(** ** [Table], [indexBucket] and [bySize] *)

Record Table := mkTable {
  keys : list string;
  level0 : list Z;
  level0Mask : Z;
  level1 : list Z;
  level1Mask : Z
}.

Record indexBucket := mkBucket {
  n : Z;
  vals : list Z
}.

(** [func (s bySize) Less(i, j int) bool { return len(s[i].vals) > len(s[j].vals) }],
    on the two elements compared. *)
Definition Less (a b : indexBucket) : bool := len (vals b) <? len (vals a).

(** [sort.Sort] belongs to Go's standard library.  Its contract: the result
    is a rearrangement of the argument in which no element is [Less] than an
    element before it; the sort is not guaranteed to be stable. *)
Class Sorter := {
  sort_Sort : list indexBucket → list indexBucket;
  sort_Sort_perm : ∀ s, sort_Sort s ≡ₚ s;
  sort_Sort_sorted : ∀ s (i j : nat) a b,
    (i < j)%nat → sort_Sort s !! i = Some a → sort_Sort s !! j = Some b →
    Less b a = false
}.

Section mph.
Context `{Murmur} `{Sorter}.

(** ** [Lookup] *)

Definition Lookup (t : Table) (s : string) : res (Z * bool) :=
  let i0 := Z.land (murmurHash 0 s) (level0Mask t) in
  seed ← idx_get (level0 t) i0;
  let i1 := Z.land (murmurHash seed s) (level1Mask t) in
  n ← idx_get (level1 t) i1;
  k ← idx_get (keys t) n;
  Done (n, String.eqb s k).

(** ** [Build] *)

(** [for i, s := range keys]: the keys left, the index [i] of the first of
    them. *)
Fixpoint partition (level0Mask : Z) (i : Z) (keys : list string)
    (sparseBuckets : list (list Z)) (pool : list string)
    : res (list (list Z) * list string) :=
  match keys with
  | [] => Done (sparseBuckets, pool)
  | s :: keys' =>
      let n := Z.land (murmurHash 0 s) level0Mask in
      vals ← idx_get sparseBuckets n;
      sparseBuckets' ← idx_set sparseBuckets n (vals ++ [i]);
      partition level0Mask (i + 1) keys' sparseBuckets' (pool ++ [s])
  end.

(** [for n, vals := range sparseBuckets]. *)
Fixpoint collect (n : Z) (sparseBuckets : list (list Z))
    (buckets : list indexBucket) : list indexBucket :=
  match sparseBuckets with
  | [] => buckets
  | vals :: rest =>
      collect (n + 1) rest
        (if 0 <? len vals then buckets ++ [mkBucket n vals] else buckets)
  end.

(** [for _, n := range tmpOcc { occ[n] = false }]. *)
Fixpoint release (tmpOcc : list Z) (occ : list bool) : res (list bool) :=
  match tmpOcc with
  | [] => Done occ
  | n :: rest => occ' ← idx_set occ n false; release rest occ'
  end.

(** One trial of a seed, [for _, i := range bucket.vals]: [true] when the
    loop runs to its end, [false] when it leaves through [goto trySeed]. *)
Fixpoint place (keys : list string) (level1Mask : Z) (seed : Z)
    (vals : list Z) (occ : list bool) (tmpOcc : list Z) (level1 : list Z)
    : res (bool * list bool * list Z) :=
  match vals with
  | [] => Done (true, occ, level1)
  | i :: rest =>
      k ← idx_get keys i;
      let n := Z.land (murmurHash seed k) level1Mask in
      o ← idx_get occ n;
      if o : bool then
        occ' ← release tmpOcc occ;
        Done (false, occ', level1)
      else
        occ' ← idx_set occ n true;
        level1' ← idx_set level1 n (uint32 i);
        place keys level1Mask seed rest occ' (tmpOcc ++ [n]) level1'
  end.

(** The label [trySeed]: [fuel] bounds the number of seeds tried for one
    bucket. *)
Fixpoint trySeed (fuel : nat) (keys : list string) (level1Mask : Z) (seed : Z)
    (vals : list Z) (occ : list bool) (level1 : list Z)
    : res (Z * list bool * list Z) :=
  match fuel with
  | O => Spin
  | S fuel' =>
      '(ok, occ', level1') ← place keys level1Mask seed vals occ [] level1;
      if ok : bool then Done (seed, occ', level1')
      else trySeed fuel' keys level1Mask (uint32 (seed + 1)) vals occ' level1'
  end.

(** [for _, bucket := range buckets]. *)
Fixpoint displace (fuel : nat) (keys : list string) (level1Mask : Z)
    (buckets : list indexBucket) (occ : list bool) (level0 level1 : list Z)
    : res (list Z * list Z) :=
  match buckets with
  | [] => Done (level0, level1)
  | bucket :: rest =>
      '(seed, occ', level1') ←
        trySeed fuel keys level1Mask 0 (vals bucket) occ level1;
      level0' ← idx_set level0 (n bucket) (uint32 seed);
      displace fuel keys level1Mask rest occ' level0' level1'
  end.

(** The buckets in the order the solver takes them. *)
Definition sortedBuckets (sparseBuckets : list (list Z)) : list indexBucket :=
  sort_Sort (collect 0 sparseBuckets []).

Definition Build (fuel : nat) (keys : list string) : res Table :=
  l0 ← nextPow2 (len keys `quot` 4);
  level0 ← make 0 l0;
  let level0Mask := len level0 - 1 in
  l1 ← nextPow2 (len keys);
  level1 ← make 0 l1;
  let level1Mask := len level1 - 1 in
  sparseBuckets ← make [] (len level0);
  '(sparseBuckets, pool) ← partition level0Mask 0 keys sparseBuckets [];
  let buckets := sortedBuckets sparseBuckets in
  occ ← make false (len level1);
  '(level0, level1) ← displace fuel keys level1Mask buckets occ level0 level1;
  Done (mkTable pool level0 level0Mask level1 level1Mask).

(** The slice [buckets] as it stands after [sort.Sort] (line 41): the part of
    [Build] that leads to it. *)
Definition bucketOrder (keys : list string) : res (list indexBucket) :=
  l0 ← nextPow2 (len keys `quot` 4);
  level0 ← make 0 l0;
  let level0Mask := len level0 - 1 in
  sparseBuckets ← make [] (len level0);
  '(sparseBuckets, pool) ← partition level0Mask 0 keys sparseBuckets [];
  Done (sortedBuckets sparseBuckets).

(** ** The key partitioner *)

Ltac inv_bind :=
  repeat match goal with
  | H : _ ≫= _ = Done _ |- _ =>
      apply bind_Done in H; destruct H as (? & ? & H)
  | H : Done _ = Done _ |- _ => injection H as H
  | H : (let '(_, _) := ?p in _) = Done _ |- _ => destruct p
  end.

(** The bucket a key falls in at level 0. *)
Definition bucketOf (level0Mask : Z) (k : string) : Z :=
  Z.land (murmurHash 0 k) level0Mask.

Lemma partition_spec level0Mask ks i sb pool sb' pool' :
  partition level0Mask i ks sb pool = Done (sb', pool') →
  pool' = pool ++ ks ∧ length sb' = length sb ∧
  (∀ (j : nat) k, ks !! j = Some k → 0 ≤ bucketOf level0Mask k < len sb) ∧
  (∀ (m : nat) vs vs', sb !! m = Some vs → sb' !! m = Some vs' →
     ∀ v, v ∈ vs' ↔
       v ∈ vs ∨ ∃ (j : nat) k, ks !! j = Some k ∧ v = i + Z.of_nat j ∧
                               bucketOf level0Mask k = Z.of_nat m).
Proof.
  revert i sb pool. induction ks as [|s ks IH]; intros i sb pool E; simpl in E.
  - simplify_eq. rewrite app_nil_r. split_and!; [done..| |].
    + intros j k Hj. by rewrite lookup_nil in Hj.
    + intros m vs vs' Hvs Hvs' v. simplify_eq. split; [by left|].
      intros [?|(j & k & Hj & _)]; [done|]. by rewrite lookup_nil in Hj.
  - fold (bucketOf level0Mask s) in E. inv_bind.
    rename x into vs0, x0 into sb1, H1 into Hget, H2 into Hset.
    apply idx_set_Done in Hset as [Hrange ->].
    apply idx_get_Done in Hget as [_ Hget].
    apply IH in E as (-> & Hlen & Hin & Hmem).
    rewrite length_insert in Hlen.
    split_and!.
    + by rewrite <- app_assoc.
    + done.
    + intros [|j] k Hj; simpl in Hj; simplify_eq; [done|].
      specialize (Hin j k Hj). unfold len in *. by rewrite length_insert in Hin.
    + intros m vs vs' Hvs Hvs' v.
      destruct (decide (m = Z.to_nat (bucketOf level0Mask s))) as [->|Hne].
      * rewrite (Hmem (Z.to_nat (bucketOf level0Mask s)) (vs0 ++ [i]) vs');
          [| |done].
        2:{ rewrite list_lookup_insert_eq; [done|]. unfold len in Hrange. lia. }
        simplify_eq. rewrite elem_of_app, list_elem_of_singleton. split.
        -- intros [[?| ->]|(j & k & Hj & -> & Hb)].
           ++ by left.
           ++ right. exists O, s. split_and!; [done|lia|lia].
           ++ right. exists (S j), k. split_and!; [done|lia|done].
        -- intros [?|([|j] & k & Hj & -> & Hb)]; [|simpl in Hj..]; simplify_eq.
           ++ by left; left.
           ++ left; right. lia.
           ++ right. exists j, k. split_and!; [done|lia|done].
      * rewrite (Hmem m vs vs'); [| |done].
        2:{ by rewrite list_lookup_insert_ne. }
        split.
        -- intros [?|(j & k & Hj & -> & Hb)]; [by left|].
           right. exists (S j), k. split_and!; [done|lia|done].
        -- intros [?|([|j] & k & Hj & -> & Hb)]; [|simpl in Hj..]; simplify_eq.
           ++ by left.
           ++ lia.
           ++ right. exists j, k. split_and!; [done|lia|done].
Qed.

(** ** The non-empty buckets, in ascending order of bucket index *)

Lemma collect_acc n0 sb acc : collect n0 sb acc = acc ++ collect n0 sb [].
Proof.
  revert n0 acc. induction sb as [|vs sb IH]; intros n0 acc; simpl.
  - by rewrite app_nil_r.
  - destruct (0 <? len vs).
    + rewrite (IH _ (acc ++ _)), (IH _ [_]). by rewrite app_assoc.
    + apply IH.
Qed.

Lemma collect_cons n0 vs sb :
  collect n0 (vs :: sb) [] =
  (if 0 <? len vs then [mkBucket n0 vs] else []) ++ collect (n0 + 1) sb [].
Proof. simpl. rewrite collect_acc. by destruct (0 <? len vs). Qed.

Lemma collect_elem n0 sb b :
  b ∈ collect n0 sb [] ↔
  ∃ m : nat, sb !! m = Some (vals b) ∧ n b = n0 + Z.of_nat m ∧ vals b ≠ [].
Proof.
  revert n0. induction sb as [|vs sb IH]; intros n0.
  - simpl. split; [by intros ?%elem_of_nil|]. intros (m & Hm & _).
    by rewrite lookup_nil in Hm.
  - rewrite collect_cons, elem_of_app, IH. split.
    + intros [Hb|(m & Hm & Hn & Hv)].
      * destruct (Z.ltb_spec 0 (len vs)) as [Hlen|]; [|by apply elem_of_nil in Hb].
        apply list_elem_of_singleton in Hb as ->. exists O. simpl.
        split_and!; [done|lia|]. intros ->. unfold len in Hlen. simpl in Hlen. lia.
      * exists (S m). split_and!; [done|lia|done].
    + intros ([|m] & Hm & Hn & Hv); simpl in Hm.
      * left. simplify_eq. destruct b as [nb vb]; simpl in *.
        destruct (Z.ltb_spec 0 (len vb)) as [|Hlen].
        -- apply list_elem_of_singleton. f_equal. lia.
        -- destruct vb; [done|]. unfold len in Hlen. simpl in Hlen. lia.
      * right. exists m. split_and!; [done|lia|done].
Qed.

Lemma collect_NoDup n0 sb : NoDup (n <$> collect n0 sb []).
Proof.
  revert n0. induction sb as [|vs sb IH]; intros n0; [constructor|].
  rewrite collect_cons. destruct (0 <? len vs); simpl; [|apply IH].
  constructor; [|apply IH].
  intros (b & Hb & (m & _ & Hn & _)%collect_elem)%list_elem_of_fmap.
  simpl in *. lia.
Qed.

(** [collect] lists the buckets by strictly increasing bucket index. *)
Lemma collect_ascending n0 sb :
  StronglySorted (λ a b, n a < n b) (collect n0 sb []).
Proof.
  revert n0. induction sb as [|vs sb IH]; intros n0; [constructor|].
  rewrite collect_cons. destruct (0 <? len vs); simpl; [|apply IH].
  constructor; [apply IH|]. apply Forall_forall.
  intros b (m & _ & Hn & _)%collect_elem. simpl. lia.
Qed.

Lemma sortedBuckets_elem sb b :
  b ∈ sortedBuckets sb ↔
  ∃ m : nat, sb !! m = Some (vals b) ∧ n b = Z.of_nat m ∧ vals b ≠ [].
Proof.
  unfold sortedBuckets. rewrite (sort_Sort_perm _), collect_elem.
  by setoid_rewrite Z.add_0_l.
Qed.

Lemma sortedBuckets_NoDup sb : NoDup (n <$> sortedBuckets sb).
Proof.
  unfold sortedBuckets. rewrite (sort_Sort_perm _). apply collect_NoDup.
Qed.

(** ** One seed trial *)

(** The level-1 slot of a key under a seed. *)
Definition slotOf (level1Mask seed : Z) (k : string) : Z :=
  Z.land (murmurHash seed k) level1Mask.

(** What an entry of [level1] can be at any time: the initial 0, or the
    index of a key that some trial hashed to that slot. *)
Definition level1_wf (ks : list string) (level1Mask : Z) (l1 : list Z) : Prop :=
  ∀ (m : nat) v, l1 !! m = Some v →
    v = 0 ∨ ∃ (i : nat) k seed,
      ks !! i = Some k ∧ v = uint32 (Z.of_nat i) ∧
      slotOf level1Mask seed k = Z.of_nat m.

(** [tmpOcc] lists slots that were free in [occ0]; [occ] differs from [occ0]
    at most there. *)
Definition tmp_inv (occ0 : list bool) (tmpOcc : list Z) (occ : list bool) : Prop :=
  length occ = length occ0 ∧
  (∀ z, z ∈ tmpOcc → 0 ≤ z ∧ occ0 !! Z.to_nat z = Some false) ∧
  (∀ m : nat, Z.of_nat m ∉ tmpOcc → occ !! m = occ0 !! m).

Lemma release_spec tmp occ occ' :
  release tmp occ = Done occ' →
  length occ' = length occ ∧
  ∀ m : nat, (Z.of_nat m ∈ tmp → occ' !! m = Some false) ∧
             (Z.of_nat m ∉ tmp → occ' !! m = occ !! m).
Proof.
  revert occ. induction tmp as [|z tmp IH]; intros occ E; simpl in E.
  - simplify_eq. split; [done|]. intros m. split; [by intros ?%elem_of_nil|done].
  - inv_bind. rename H1 into Hset. apply idx_set_Done in Hset as [Hz ->].
    apply IH in E as [Hlen Hm]. rewrite length_insert in Hlen.
    split; [done|]. intros m. destruct (Hm m) as [Hin Hout]. split.
    + intros [Heq|Hrest]%elem_of_cons; [|by apply Hin].
      destruct (decide (Z.of_nat m ∈ tmp)) as [?|Hno]; [by apply Hin|].
      rewrite (Hout Hno). replace m with (Z.to_nat z) by lia.
      apply list_lookup_insert_eq. unfold len in Hz. lia.
    + intros [Hne Hno]%not_elem_of_cons. rewrite (Hout Hno).
      apply list_lookup_insert_ne. lia.
Qed.

Lemma release_restores occ0 tmp occ occ' :
  tmp_inv occ0 tmp occ → release tmp occ = Done occ' → occ' = occ0.
Proof.
  intros (Hlen & Hfree & Hsame) [Hlen' Hm]%release_spec.
  apply list_eq. intros m. destruct (Hm m) as [Hin Hout].
  destruct (decide (Z.of_nat m ∈ tmp)) as [Hyes|Hno].
  - rewrite (Hin Hyes). destruct (Hfree _ Hyes) as [_ Hf].
    by rewrite Nat2Z.id in Hf.
  - by rewrite (Hout Hno), (Hsame m Hno).
Qed.

Lemma place_frame ks mask seed vs occ tmp l1 ok occ' l1' :
  place ks mask seed vs occ tmp l1 = Done (ok, occ', l1') →
  length occ' = length occ ∧ length l1' = length l1 ∧
  (∀ m : nat, occ !! m = Some true → l1' !! m = l1 !! m) ∧
  (level1_wf ks mask l1 → level1_wf ks mask l1').
Proof.
  revert occ tmp l1. induction vs as [|i vs IH]; intros occ tmp l1 E; simpl in E.
  - by simplify_eq.
  - inv_bind. rename x into k, x0 into o, H1 into Hk, H2 into Ho.
    fold (slotOf mask seed k) in *. destruct o; inv_bind.
    + rename H1 into Hrel. apply release_spec in Hrel as [Hlen _]. by simplify_eq.
    + rename H1 into Hocc, H2 into Hl1.
      apply idx_set_Done in Hocc as [Hr ->]. apply idx_set_Done in Hl1 as [Hr1 ->].
      apply idx_get_Done in Ho as [_ Ho].
      apply IH in E as (Hlo & Hll & Hkeep & Hwf).
      rewrite length_insert in Hlo. rewrite length_insert in Hll. split_and!; [done..| |].
      * intros m Hm. rewrite Hkeep.
        -- apply list_lookup_insert_ne. intros <-. congruence.
        -- rewrite list_lookup_insert_ne; [done|]. intros <-. congruence.
      * intros Hw. apply Hwf. intros m v Hv.
        destruct (decide (m = Z.to_nat (slotOf mask seed k))) as [->|Hne].
        -- rewrite list_lookup_insert_eq in Hv by (unfold len in Hr1; lia).
           simplify_eq. right. apply idx_get_Done in Hk as [Hi Hk].
           exists (Z.to_nat i), k, seed. split_and!; [done| |lia].
           f_equal. lia.
        -- rewrite list_lookup_insert_ne in Hv by done. by apply Hw.
Qed.

Lemma place_ok ks mask seed vs occ tmp l1 occ' l1' :
  place ks mask seed vs occ tmp l1 = Done (true, occ', l1') →
  (∀ m : nat, occ !! m = Some true → occ' !! m = Some true) ∧
  ∀ i, i ∈ vs → ∃ k, idx_get ks i = Done k ∧
    idx_get occ' (slotOf mask seed k) = Done true ∧
    idx_get l1' (slotOf mask seed k) = Done (uint32 i).
Proof.
  revert occ tmp l1. induction vs as [|i vs IH]; intros occ tmp l1 E; simpl in E.
  - simplify_eq. split; [done|]. by intros i ?%elem_of_nil.
  - inv_bind. rename x into k, x0 into o, H1 into Hk, H2 into Ho.
    fold (slotOf mask seed k) in *. destruct o; inv_bind; [done|].
    rename H1 into Hocc, H2 into Hl1.
    apply idx_set_Done in Hocc as [Hr ->]. apply idx_set_Done in Hl1 as [Hr1 ->].
    apply idx_get_Done in Ho as [Hs Ho].
    pose proof (place_frame _ _ _ _ _ _ _ _ _ _ E) as (_ & _ & Hkeep & _).
    apply IH in E as [Hmono Hvs].
    assert (<[Z.to_nat (slotOf mask seed k):=true]> occ
              !! Z.to_nat (slotOf mask seed k) = Some true) as Hset.
    { apply list_lookup_insert_eq. unfold len in Hr. lia. }
    split.
    + intros m Hm. apply Hmono. rewrite list_lookup_insert_ne; [done|].
      intros <-. congruence.
    + intros j [->|Hj]%elem_of_cons; [|by apply Hvs].
      exists k. split_and!; [done| |]; apply idx_get_Done; (split; [done|]).
      * by apply Hmono.
      * rewrite (Hkeep _ Hset). apply list_lookup_insert_eq.
        unfold len in Hr1. lia.
Qed.

(** A trial that fails leaves the occupancy array as it found it. *)
Lemma place_fail ks mask seed vs occ tmp l1 occ' l1' occ0 :
  place ks mask seed vs occ tmp l1 = Done (false, occ', l1') →
  tmp_inv occ0 tmp occ → occ' = occ0.
Proof.
  revert occ tmp l1. induction vs as [|i vs IH]; intros occ tmp l1 E Hinv;
    simpl in E; [done|].
  inv_bind. rename x into k, x0 into o, H1 into Hk, H2 into Ho.
  fold (slotOf mask seed k) in *. destruct o; inv_bind.
  - rename H1 into Hrel. simplify_eq. by eapply release_restores.
  - rename H1 into Hocc, H2 into Hl1.
    apply idx_set_Done in Hocc as [Hr ->]. apply idx_set_Done in Hl1 as [Hr1 ->].
    apply idx_get_Done in Ho as [Hs Ho].
    eapply IH; [exact E|]. destruct Hinv as (Hlen & Hfree & Hsame).
    split_and!.
    + by rewrite length_insert.
    + intros z [Hz| ->%list_elem_of_singleton]%elem_of_app; [by apply Hfree|].
      split; [done|].
      destruct (decide (slotOf mask seed k ∈ tmp)) as [Hin|Hout];
        [by apply Hfree|].
      rewrite <- Hsame; [done|]. by rewrite Z2Nat.id.
    + intros m [Hm Hne]%not_elem_of_app. rewrite list_elem_of_singleton in Hne.
      rewrite list_lookup_insert_ne by lia. by apply Hsame.
Qed.

(** ** The seed search and the displacement loop *)

Lemma trySeed_spec fuel ks mask seed0 vs occ l1 seed occ' l1' :
  trySeed fuel ks mask seed0 vs occ l1 = Done (seed, occ', l1') →
  0 ≤ seed0 < 2 ^ 32 →
  0 ≤ seed < 2 ^ 32 ∧ length occ' = length occ ∧ length l1' = length l1 ∧
  (∀ m : nat, occ !! m = Some true →
     occ' !! m = Some true ∧ l1' !! m = l1 !! m) ∧
  (level1_wf ks mask l1 → level1_wf ks mask l1') ∧
  (∀ i, i ∈ vs → ∃ k, idx_get ks i = Done k ∧
     idx_get occ' (slotOf mask seed k) = Done true ∧
     idx_get l1' (slotOf mask seed k) = Done (uint32 i)).
Proof.
  revert seed0 occ l1. induction fuel as [|fuel IH]; intros seed0 occ l1 E Hs;
    simpl in E; [done|].
  apply bind_Done in E as ([[ok occ1] l1_1] & Hplace & E).
  pose proof (place_frame _ _ _ _ _ _ _ _ _ _ Hplace) as (Hlo & Hll & Hkeep & Hwf).
  destruct ok.
  - simplify_eq. apply place_ok in Hplace as [Hmono Hvs].
    split_and!; [lia|lia|done..| |done|done].
    intros m Hm. split; [by apply Hmono | by apply Hkeep].
  - assert (occ1 = occ) as ->.
    { eapply place_fail; [exact Hplace|].
      split_and!; [done| |done]. by intros z ?%elem_of_nil. }
    apply IH in E as (Hseed & Hlo' & Hll' & Hkeep' & Hwf' & Hvs);
      [|apply uint32_range].
    split_and!; [lia|lia|done|congruence| |by auto|done].
    intros m Hm. destruct (Hkeep' m Hm) as [? ->]. split; [done|by apply Hkeep].
Qed.

Lemma displace_spec fuel ks mask bs occ l0 l1 l0' l1' :
  displace fuel ks mask bs occ l0 l1 = Done (l0', l1') →
  NoDup (n <$> bs) →
  length l0' = length l0 ∧ length l1' = length l1 ∧
  (∀ m : nat, Z.of_nat m ∉ n <$> bs → l0' !! m = l0 !! m) ∧
  (∀ m : nat, occ !! m = Some true → l1' !! m = l1 !! m) ∧
  (level1_wf ks mask l1 → level1_wf ks mask l1') ∧
  (∀ b i, b ∈ bs → i ∈ vals b → ∃ k seed,
     idx_get ks i = Done k ∧ idx_get l0' (n b) = Done seed ∧
     idx_get l1' (slotOf mask seed k) = Done (uint32 i)).
Proof.
  revert occ l0 l1. induction bs as [|b bs IH]; intros occ l0 l1 E Hnd;
    simpl in E.
  - simplify_eq. split_and!; [done..|]. by intros b i ?%elem_of_nil.
  - apply bind_Done in E as ([[seed occ1] l1_1] & Htry & E).
    apply bind_Done in E as (l0_1 & Hset & E).
    apply idx_set_Done in Hset as [Hr ->].
    apply trySeed_spec in Htry as (Hseed & Hlo & Hll & Hkeep & Hwf & Hvs); [|lia].
    rewrite fmap_cons in Hnd. apply NoDup_cons in Hnd as [Hfresh Hnd].
    apply IH in E as (Hl0 & Hl1 & Hl0keep & Hl1keep & Hwf' & Hbs); [|done].
    rewrite length_insert in Hl0. split_and!; [done|congruence| | |by auto|].
    + intros m [Hne Hm]%not_elem_of_cons. rewrite (Hl0keep m Hm).
      apply list_lookup_insert_ne. lia.
    + intros m Hm. destruct (Hkeep m Hm) as [Hm1 <-]. by apply Hl1keep.
    + intros b' i [->|Hb']%elem_of_cons Hi; [|by apply Hbs].
      destruct (Hvs i Hi) as (k & Hk & Hocc & Hl1i).
      exists k, seed. split_and!; [done| |].
      * apply idx_get_Done. split; [lia|].
        rewrite Hl0keep by (by rewrite Z2Nat.id by lia).
        rewrite list_lookup_insert_eq by (unfold len in Hr; lia).
        by rewrite uint32_small.
      * apply idx_get_Done in Hocc as [Hs Hocc]. apply idx_get_Done in Hl1i as [_ Hl1i].
        apply idx_get_Done. split; [done|]. by rewrite (Hl1keep _ Hocc).
Qed.

(** ** Committed keys never share a slot

    A key is placed only in a slot that is free, and the slot is then marked:
    the slots of a successful trial are pairwise different and were all free
    when the trial began. *)

Lemma place_ok_free ks mask seed vs occ tmp l1 occ' l1' :
  place ks mask seed vs occ tmp l1 = Done (true, occ', l1') →
  (∀ i k, i ∈ vs → idx_get ks i = Done k →
     occ !! Z.to_nat (slotOf mask seed k) = Some false) ∧
  (∀ i j ki kj, i ∈ vs → j ∈ vs → i ≠ j →
     idx_get ks i = Done ki → idx_get ks j = Done kj →
     slotOf mask seed ki ≠ slotOf mask seed kj).
Proof.
  revert occ tmp l1. induction vs as [|i0 vs IH]; intros occ tmp l1 E; simpl in E.
  - split; [by intros i k ?%elem_of_nil | by intros i j ki kj ?%elem_of_nil].
  - apply bind_Done in E as (k0 & Hk0 & E). fold (slotOf mask seed k0) in E.
    apply bind_Done in E as (o & Ho & E). destruct o; [by inv_bind|].
    apply bind_Done in E as (occ1 & [Hr ->]%idx_set_Done & E).
    apply bind_Done in E as (l1_1 & [Hr1 ->]%idx_set_Done & E).
    apply idx_get_Done in Ho as [Hs Ho].
    apply IH in E as [Hfree Hdiff].
    assert (∀ j kj, j ∈ vs → idx_get ks j = Done kj →
              slotOf mask seed kj ≠ slotOf mask seed k0) as Hhead.
    { intros j kj Hj Hkj Heq. specialize (Hfree j kj Hj Hkj).
      rewrite Heq, list_lookup_insert_eq in Hfree; [done|].
      unfold len in Hr. lia. }
    split.
    + intros i k [->|Hi]%elem_of_cons Hk.
      * rewrite Hk0 in Hk. by simplify_eq.
      * specialize (Hfree i k Hi Hk).
        rewrite list_lookup_insert_ne in Hfree; [done|].
        intros Heq. apply (Hhead i k Hi Hk). apply Z2Nat.inj; [| |done].
        -- apply Z.land_nonneg. left. apply murmurHash_range.
        -- done.
    + intros i j ki kj [->|Hi]%elem_of_cons [->|Hj]%elem_of_cons Hij Hki Hkj.
      * done.
      * rewrite Hk0 in Hki. simplify_eq. intros Heq. by eapply Hhead.
      * rewrite Hk0 in Hkj. simplify_eq. by eapply Hhead.
      * exact (Hdiff i j ki kj Hi Hj Hij Hki Hkj).
Qed.

Lemma trySeed_free fuel ks mask seed0 vs occ l1 seed occ' l1' :
  trySeed fuel ks mask seed0 vs occ l1 = Done (seed, occ', l1') →
  (∀ i k, i ∈ vs → idx_get ks i = Done k →
     occ !! Z.to_nat (slotOf mask seed k) = Some false) ∧
  (∀ i j ki kj, i ∈ vs → j ∈ vs → i ≠ j →
     idx_get ks i = Done ki → idx_get ks j = Done kj →
     slotOf mask seed ki ≠ slotOf mask seed kj).
Proof.
  revert seed0 occ l1. induction fuel as [|fuel IH]; intros seed0 occ l1 E;
    simpl in E; [done|].
  apply bind_Done in E as ([[ok occ1] l1_1] & Hplace & E). destruct ok.
  - simplify_eq. by eapply place_ok_free.
  - assert (occ1 = occ) as ->.
    { eapply place_fail; [exact Hplace|].
      split_and!; [done| |done]. by intros z ?%elem_of_nil. }
    by eapply IH.
Qed.

Lemma displace_free fuel ks mask bs occ l0 l1 l0' l1' :
  displace fuel ks mask bs occ l0 l1 = Done (l0', l1') →
  NoDup (n <$> bs) →
  (∀ b i k seed, b ∈ bs → i ∈ vals b → idx_get ks i = Done k →
     idx_get l0' (n b) = Done seed →
     occ !! Z.to_nat (slotOf mask seed k) = Some false) ∧
  (∀ b b' i j ki kj si sj, b ∈ bs → b' ∈ bs → i ∈ vals b → j ∈ vals b' →
     i ≠ j → idx_get ks i = Done ki → idx_get ks j = Done kj →
     idx_get l0' (n b) = Done si → idx_get l0' (n b') = Done sj →
     slotOf mask si ki ≠ slotOf mask sj kj).
Proof.
  revert occ l0 l1. induction bs as [|b0 bs IH]; intros occ l0 l1 E Hnd;
    simpl in E.
  - split; [by intros b i k seed ?%elem_of_nil|].
    by intros b b' i j ki kj si sj ?%elem_of_nil.
  - apply bind_Done in E as ([[seed0 occ1] l1_1] & Htry & E).
    apply bind_Done in E as (l0_1 & Hset & E).
    apply idx_set_Done in Hset as [Hr ->].
    pose proof (trySeed_free _ _ _ _ _ _ _ _ _ _ Htry) as [Hfree0 Hdiff0].
    apply trySeed_spec in Htry as (Hseed & Hlo & _ & Hkeep & _ & Hvs); [|lia].
    rewrite fmap_cons in Hnd. apply NoDup_cons in Hnd as [Hfresh Hnd].
    pose proof (displace_spec _ _ _ _ _ _ _ _ _ E Hnd) as (_ & _ & Hl0keep & _).
    apply IH in E as [Hfree Hdiff]; [|done].
    assert (idx_get l0' (n b0) = Done seed0) as Hseed0.
    { apply idx_get_Done. split; [lia|].
      rewrite Hl0keep by (by rewrite Z2Nat.id by lia).
      rewrite list_lookup_insert_eq by (unfold len in Hr; lia).
      by rewrite uint32_small. }
    assert (∀ i k, i ∈ vals b0 → idx_get ks i = Done k →
              occ1 !! Z.to_nat (slotOf mask seed0 k) = Some true) as Hmarked.
    { intros i k Hi Hk. destruct (Hvs i Hi) as (k' & Hk' & Hocc & _).
      rewrite Hk in Hk'. simplify_eq. by apply idx_get_Done in Hocc as [_ ?]. }
    assert (∀ z, 0 ≤ z → occ1 !! Z.to_nat z = Some false →
              occ !! Z.to_nat z = Some false) as Hback.
    { intros z Hz Hf.
      destruct (lookup_lt_is_Some_2 occ (Z.to_nat z)) as [[|] Hb]; [| |done].
      - rewrite <- Hlo. by eapply lookup_lt_Some.
      - apply Hkeep in Hb as [Hb _]. congruence. }
    assert (∀ s k, 0 ≤ slotOf mask s k) as Hnn.
    { intros s k. apply Z.land_nonneg. left. apply murmurHash_range. }
    split.
    + intros b i k seed [->|Hb]%elem_of_cons Hi Hk Hs.
      * rewrite Hseed0 in Hs. simplify_eq. by eapply Hfree0.
      * apply Hback; [done|]. by eapply Hfree.
    + intros b b' i j ki kj si sj [->|Hb]%elem_of_cons [->|Hb']%elem_of_cons
        Hi Hj Hij Hki Hkj Hsi Hsj.
      * rewrite Hseed0 in Hsi. rewrite Hseed0 in Hsj. simplify_eq.
        exact (Hdiff0 i j ki kj Hi Hj Hij Hki Hkj).
      * rewrite Hseed0 in Hsi. simplify_eq. intros Heq.
        pose proof (Hmarked i ki Hi Hki) as Ht.
        pose proof (Hfree b' j kj sj Hb' Hj Hkj Hsj) as Hf. congruence.
      * rewrite Hseed0 in Hsj. simplify_eq. intros Heq.
        pose proof (Hmarked j kj Hj Hkj) as Ht.
        pose proof (Hfree b i ki si Hb Hi Hki Hsi) as Hf. congruence.
      * exact (Hdiff b b' i j ki kj si sj Hb Hb' Hi Hj Hij Hki Hkj Hsi Hsj).
Qed.

(** ** More seeds to try never change a result *)

Lemma trySeed_mono fuel fuel' ks mask seed0 vs occ l1 r :
  trySeed fuel ks mask seed0 vs occ l1 = Done r → (fuel ≤ fuel')%nat →
  trySeed fuel' ks mask seed0 vs occ l1 = Done r.
Proof.
  revert fuel' seed0 occ l1. induction fuel as [|fuel IH];
    intros fuel' seed0 occ l1 E Hle; simpl in E; [done|].
  destruct fuel' as [|fuel']; [lia|]. simpl.
  apply bind_Done in E as ([[ok occ1] l1_1] & -> & E). simpl.
  destruct ok; [done|]. apply IH; [done|lia].
Qed.

Lemma displace_mono fuel fuel' ks mask bs occ l0 l1 r :
  displace fuel ks mask bs occ l0 l1 = Done r → (fuel ≤ fuel')%nat →
  displace fuel' ks mask bs occ l0 l1 = Done r.
Proof.
  intros E Hle. revert occ l0 l1 E. induction bs as [|b bs IH];
    intros occ l0 l1 E; simpl in *; [done|].
  apply bind_Done in E as ([[seed occ1] l1_1] & Htry & E).
  rewrite (trySeed_mono _ fuel' _ _ _ _ _ _ _ Htry Hle). simpl.
  apply bind_Done in E as (l0_1 & -> & E). simpl. by apply IH.
Qed.

(** ** [Build], taken apart *)

Lemma len_replicate {A} (z : Z) (d : A) : 0 ≤ z → len (replicate (Z.to_nat z) d) = z.
Proof. intros Hz. unfold len. rewrite length_replicate. lia. Qed.

Lemma make_Done {A} (d : A) z l :
  make d z = Done l ↔ 0 ≤ z ∧ l = replicate (Z.to_nat z) d.
Proof.
  unfold make. destruct (Z.ltb_spec z 0); split; intros; destruct_and?;
    simplify_eq; try done; lia.
Qed.

Lemma Build_inv fuel ks t :
  Build fuel ks = Done t →
  ∃ a b sb l0' l1',
    nextPow2 (len ks `quot` 4) = Done a ∧ nextPow2 (len ks) = Done b ∧
    1 ≤ a ∧ 1 ≤ b ∧
    partition (a - 1) 0 ks (replicate (Z.to_nat a) []) [] = Done (sb, ks) ∧
    displace fuel ks (b - 1) (sortedBuckets sb) (replicate (Z.to_nat b) false)
      (replicate (Z.to_nat a) 0) (replicate (Z.to_nat b) 0) = Done (l0', l1') ∧
    t = mkTable ks l0' (a - 1) l1' (b - 1).
Proof.
  unfold Build. intros E.
  apply bind_Done in E as (a & Ha & E).
  apply bind_Done in E as (lv0 & [Ha0 ->]%make_Done & E).
  apply bind_Done in E as (b & Hb & E).
  apply bind_Done in E as (lv1 & [Hb0 ->]%make_Done & E).
  apply bind_Done in E as (sb0 & [_ ->]%make_Done & E).
  apply bind_Done in E as ([sb pool] & Hpart & E).
  apply bind_Done in E as (occ & [_ ->]%make_Done & E).
  apply bind_Done in E as ([l0' l1'] & Hdis & E).
  rewrite !len_replicate in * by done.
  pose proof (leastPow2_pos _ _ (nextPow2_spec _ _ Ha)).
  pose proof (leastPow2_pos _ _ (nextPow2_spec _ _ Hb)).
  pose proof (partition_spec _ _ _ _ _ _ _ Hpart) as (-> & _).
  simpl in *. exists a, b, sb, l0', l1'. by simplify_eq.
Qed.

Lemma Build_mono fuel fuel' ks t :
  Build fuel ks = Done t → (fuel ≤ fuel')%nat → Build fuel' ks = Done t.
Proof.
  unfold Build. intros E Hle.
  apply bind_Done in E as (a & -> & E). simpl.
  apply bind_Done in E as (lv0 & -> & E). simpl.
  apply bind_Done in E as (b & -> & E). simpl.
  apply bind_Done in E as (lv1 & -> & E). simpl.
  apply bind_Done in E as (sb0 & -> & E). simpl.
  apply bind_Done in E as ([sb pool] & -> & E). simpl.
  apply bind_Done in E as (occ & -> & E). simpl.
  apply bind_Done in E as ([l0' l1'] & Hdis & E).
  by rewrite (displace_mono _ fuel' _ _ _ _ _ _ _ Hdis Hle).
Qed.

(** ** What every built table satisfies *)

Lemma Build_facts fuel ks t :
  Build fuel ks = Done t →
  keys t = ks ∧
  0 ≤ level0Mask t ∧ len (level0 t) = level0Mask t + 1 ∧
  0 ≤ level1Mask t ∧ len (level1 t) = level1Mask t + 1 ∧
  leastPow2 (len ks `quot` 4) (len (level0 t)) ∧
  leastPow2 (len ks) (len (level1 t)) ∧
  level1_wf ks (level1Mask t) (level1 t) ∧
  (∀ (i : nat) k, ks !! i = Some k → ∃ seed,
     idx_get (level0 t) (bucketOf (level0Mask t) k) = Done seed ∧
     idx_get (level1 t) (slotOf (level1Mask t) seed k)
       = Done (uint32 (Z.of_nat i))).
Proof.
  intros (a & b & sb & l0' & l1' & Ha & Hb & Ha1 & Hb1 & Hpart & Hdis & ->)%Build_inv.
  apply displace_spec in Hdis as (Hl0 & Hl1 & _ & _ & Hwf & Hpath);
    [|apply sortedBuckets_NoDup].
  rewrite length_replicate in Hl0, Hl1.
  apply partition_spec in Hpart as (_ & Hlsb & Hin & Hmem).
  rewrite length_replicate in Hlsb. unfold len in Hin. rewrite length_replicate in Hin.
  simpl. unfold len. rewrite Hl0, Hl1, !Z2Nat.id by lia.
  split_and!; [done|lia|lia|lia|lia| | | |].
  - by apply nextPow2_spec.
  - by apply nextPow2_spec.
  - apply Hwf. intros m v [-> _]%lookup_replicate. by left.
  - intros i k Hk. specialize (Hin i k Hk).
    set (m := Z.to_nat (bucketOf (a - 1) k)).
    destruct (lookup_lt_is_Some_2 sb m) as [vs' Hvs']; [lia|].
    assert (Z.of_nat i ∈ vs') as Hi.
    { apply (Hmem m [] vs'); [apply lookup_replicate_2; lia|done|].
      right. exists i, k. split_and!; [done|lia|lia]. }
    destruct (Hpath (mkBucket (bucketOf (a - 1) k) vs') (Z.of_nat i))
      as (k' & seed & Hk' & Hseed & Hslot); [|done|].
    { apply sortedBuckets_elem. exists m. simpl. split_and!; [done|lia|].
      intros ->. by apply elem_of_nil in Hi. }
    apply idx_get_Done in Hk' as [_ Hk']. rewrite Nat2Z.id in Hk'.
    simplify_eq. by exists seed.
Qed.

(** ** Slots are never shared, so a table holds at most [2^32] keys *)

Lemma land_hash_range h mask : 0 ≤ h → 0 ≤ mask → Z.land h mask ≤ h.
Proof.
  intros Hh Hm. destruct h as [|p|p], mask as [|q|q]; try done; try lia.
  pose proof (N.land_le_l (N.pos p) (N.pos q)) as Hle.
  change (Z.land (Z.pos p) (Z.pos q)) with (Z.of_N (N.land (N.pos p) (N.pos q))).
  lia.
Qed.

Lemma NoDup_range_length (l : list Z) N :
  0 ≤ N → NoDup l → (∀ z, z ∈ l → 0 ≤ z < N) → len l ≤ N.
Proof.
  intros HN Hnd Hin.
  assert (l ⊆+ seqZ 0 N) as Hsub.
  { apply NoDup_submseteq; [done|]. intros z Hz. apply elem_of_seqZ.
    specialize (Hin z Hz). lia. }
  apply submseteq_length in Hsub. rewrite length_seqZ in Hsub. unfold len. lia.
Qed.

Lemma partition_bucket a ks sb (i : nat) k :
  partition (a - 1) 0 ks (replicate (Z.to_nat a) []) [] = Done (sb, ks) →
  ks !! i = Some k →
  ∃ vs, mkBucket (bucketOf (a - 1) k) vs ∈ sortedBuckets sb ∧ Z.of_nat i ∈ vs.
Proof.
  intros (_ & Hlsb & Hin & Hmem)%partition_spec Hk.
  rewrite length_replicate in Hlsb. unfold len in Hin.
  rewrite length_replicate in Hin. specialize (Hin i k Hk).
  set (m := Z.to_nat (bucketOf (a - 1) k)).
  destruct (lookup_lt_is_Some_2 sb m) as [vs Hvs]; [lia|].
  assert (Z.of_nat i ∈ vs) as Hi.
  { apply (Hmem m [] vs); [apply lookup_replicate_2; lia|done|].
    right. exists i, k. split_and!; [done|lia|lia]. }
  exists vs. split; [|done]. apply sortedBuckets_elem. exists m. simpl.
  split_and!; [done|lia|]. intros ->. by apply elem_of_nil in Hi.
Qed.

Lemma Build_slots_injective fuel ks t (i j : nat) ki kj si sj :
  Build fuel ks = Done t →
  ks !! i = Some ki → ks !! j = Some kj → i ≠ j →
  idx_get (level0 t) (bucketOf (level0Mask t) ki) = Done si →
  idx_get (level0 t) (bucketOf (level0Mask t) kj) = Done sj →
  slotOf (level1Mask t) si ki ≠ slotOf (level1Mask t) sj kj.
Proof.
  intros (a & b & sb & l0' & l1' & _ & _ & _ & _ & Hpart & Hdis & ->)%Build_inv
    Hi Hj Hij Hsi Hsj. simpl in *.
  apply displace_free in Hdis as [_ Hdiff]; [|apply sortedBuckets_NoDup].
  destruct (partition_bucket _ _ _ _ _ Hpart Hi) as (vi & Hbi & Hvi).
  destruct (partition_bucket _ _ _ _ _ Hpart Hj) as (vj & Hbj & Hvj).
  apply (Hdiff _ _ (Z.of_nat i) (Z.of_nat j) ki kj si sj Hbi Hbj Hvi Hvj);
    [lia| | |done|done]; apply idx_get_Done; by rewrite Nat2Z.id; split; [lia|].
Qed.

(** The slot [Lookup] reaches for a key. *)
Definition slotIn (t : Table) (k : string) : Z :=
  match idx_get (level0 t) (bucketOf (level0Mask t) k) with
  | Done seed => slotOf (level1Mask t) seed k
  | _ => -1
  end.

Lemma Build_slotIn_NoDup fuel ks t :
  Build fuel ks = Done t → NoDup (slotIn t <$> ks).
Proof.
  intros Hb. apply NoDup_alt. intros i j z.
  rewrite !list_lookup_fmap.
  destruct (ks !! i) as [ki|] eqn:Hi; [|done].
  destruct (ks !! j) as [kj|] eqn:Hj; [|done]. simpl. intros [= Hzi] [= Hzj].
  destruct (decide (i = j)) as [|Hij]; [done|]. exfalso.
  destruct (Build_facts _ _ _ Hb) as (_ & _ & _ & _ & _ & _ & _ & _ & Hpath).
  destruct (Hpath i ki Hi) as (si & Hsi & _).
  destruct (Hpath j kj Hj) as (sj & Hsj & _).
  unfold slotIn in Hzi, Hzj. rewrite Hsi in Hzi. rewrite Hsj in Hzj.
  eapply (Build_slots_injective _ _ _ i j); [done..|]. congruence.
Qed.

(** [Build] returns only on keys that are pairwise distinct. *)
Lemma Build_NoDup fuel ks t : Build fuel ks = Done t → NoDup ks.
Proof. intros Hb%Build_slotIn_NoDup. by eapply NoDup_fmap_1. Qed.

(** The slots are [uint32] values: [Build] returns on at most [2^32] keys. *)
Lemma Build_key_count fuel ks t : Build fuel ks = Done t → len ks ≤ 2 ^ 32.
Proof.
  intros Hb.
  enough (len (slotIn t <$> ks) ≤ 2 ^ 32) as Hle.
  { unfold len in *. by rewrite length_fmap in Hle. }
  apply NoDup_range_length; [lia|by eapply Build_slotIn_NoDup|].
  intros z (k & -> & (i & Hk)%list_elem_of_lookup_1)%list_elem_of_fmap.
  destruct (Build_facts _ _ _ Hb) as (_ & _ & _ & Hm1 & _ & _ & _ & _ & Hpath).
  destruct (Hpath i k Hk) as (seed & Hseed & _).
  unfold slotIn. rewrite Hseed. unfold slotOf.
  pose proof (murmurHash_range seed k) as Hh.
  pose proof (land_mask_range (murmurHash seed k) (level1Mask t) (proj1 Hh) Hm1).
  pose proof (land_hash_range (murmurHash seed k) (level1Mask t) (proj1 Hh) Hm1).
  lia.
Qed.


(** ** [Lookup] on a built table *)

Lemma Lookup_member fuel ks t (i : nat) k :
  Build fuel ks = Done t → ks !! i = Some k →
  ∃ seed,
    idx_get (level0 t) (bucketOf (level0Mask t) k) = Done seed ∧
    idx_get (level1 t) (slotOf (level1Mask t) seed k) = Done (Z.of_nat i) ∧
    Lookup t k = Done (Z.of_nat i, true) ∧
    keys t !! i = Some k.
Proof.
  intros Hb Hk. pose proof (Build_key_count _ _ _ Hb) as Hsize.
  destruct (Build_facts _ _ _ Hb) as (Hkeys & _ & _ & _ & _ & _ & _ & _ & Hpath).
  destruct (Hpath i k Hk) as (seed & Hseed & Hslot).
  assert (Z.of_nat i < len ks) as Hi.
  { apply lookup_lt_Some in Hk. unfold len. lia. }
  rewrite uint32_small in Hslot by lia.
  exists seed. split_and!; [done|done| |by rewrite Hkeys].
  unfold Lookup. fold (bucketOf (level0Mask t) k). rewrite Hseed. simpl.
  fold (slotOf (level1Mask t) seed k). rewrite Hslot. simpl.
  assert (idx_get (keys t) (Z.of_nat i) = Done k) as ->.
  { apply idx_get_Done. split; [lia|]. by rewrite Nat2Z.id, Hkeys. }
  simpl. by rewrite String.eqb_refl.
Qed.

(** On a table built from at least one key, [Lookup] returns: every index
    it computes is inside the slice it reads. *)
Lemma Lookup_returns fuel ks t z :
  Build fuel ks = Done t → ks ≠ [] →
  ∃ c k, Lookup t z = Done (c, String.eqb z k) ∧ idx_get (keys t) c = Done k.
Proof.
  intros Hb Hne.
  destruct (Build_facts _ _ _ Hb)
    as (Hkeys & Hm0 & Hl0 & Hm1 & Hl1 & _ & _ & Hwf & _).
  unfold Lookup.
  destruct (idx_get_in_range (level0 t) (Z.land (murmurHash 0 z) (level0Mask t)))
    as [seed ->].
  { pose proof (land_mask_range (murmurHash 0 z) (level0Mask t)
                  (proj1 (murmurHash_range 0 z)) Hm0). lia. }
  simpl.
  destruct (idx_get_in_range (level1 t) (Z.land (murmurHash seed z) (level1Mask t)))
    as [c Hc].
  { pose proof (land_mask_range (murmurHash seed z) (level1Mask t)
                  (proj1 (murmurHash_range seed z)) Hm1). lia. }
  rewrite Hc. simpl.
  destruct (idx_get_in_range (keys t) c) as [k Hk].
  { rewrite Hkeys. apply idx_get_Done in Hc as [_ Hc].
    destruct (Hwf _ _ Hc) as [->|(i & k & sd & Hi & -> & _)].
    - destruct ks; [done|]. unfold len. simpl. lia.
    - apply lookup_lt_Some in Hi. pose proof (uint32_range (Z.of_nat i)).
      pose proof (uint32_le (Z.of_nat i)). unfold len. lia. }
  rewrite Hk. simpl. by exists c, k.
Qed.

Lemma Lookup_found_is_key fuel ks t z c :
  Build fuel ks = Done t → Lookup t z = Done (c, true) → z ∈ ks.
Proof.
  intros Hb E. destruct (Build_facts _ _ _ Hb) as (Hkeys & _).
  unfold Lookup in E.
  apply bind_Done in E as (seed & _ & E). apply bind_Done in E as (c' & _ & E).
  apply bind_Done in E as (k & Hk & E).
  apply idx_get_Done in Hk as [_ Hk]. rewrite Hkeys in Hk.
  injection E as _ ->%String.eqb_eq. by eapply list_elem_of_lookup_2.
Qed.

(** The table of no keys: both index arrays have one entry, and [Lookup]
    reads [keys[0]] of an empty [keys]. *)
Lemma Build_nil fuel : Build fuel [] = Done (mkTable [] [0] 0 [0] 0).
Proof.
  unfold Build. simpl. unfold sortedBuckets. simpl.
  pose proof (sort_Sort_perm []) as ->%Permutation_nil_r. reflexivity.
Qed.

Lemma Lookup_nil_table s : Lookup (mkTable [] [0] 0 [0] 0) s = Panic.
Proof.
  unfold Lookup. simpl. rewrite Z.land_0_r. simpl. by rewrite Z.land_0_r.
Qed.

Lemma Build_lengths fuel ks t :
  Build fuel ks = Done t →
  nextPow2 (len ks `quot` 4) = Done (len (level0 t)) ∧
  nextPow2 (len ks) = Done (len (level1 t)).
Proof.
  intros (a & b & sb & l0' & l1' & Ha & Hb & Ha1 & Hb1 & _ & Hdis & ->)%Build_inv.
  apply displace_spec in Hdis as (Hl0 & Hl1 & _); [|apply sortedBuckets_NoDup].
  rewrite length_replicate in Hl0, Hl1. simpl. unfold len.
  by rewrite Hl0, Hl1, !Z2Nat.id by lia.
Qed.

Lemma Build_bucketOrder fuel ks t :
  Build fuel ks = Done t →
  ∃ sb, bucketOrder ks = Done (sortedBuckets sb) ∧
    displace fuel ks (level1Mask t) (sortedBuckets sb)
      (replicate (Z.to_nat (len (level1 t))) false)
      (replicate (Z.to_nat (len (level0 t))) 0)
      (replicate (Z.to_nat (len (level1 t))) 0) = Done (level0 t, level1 t).
Proof.
  intros Hb. destruct (Build_lengths _ _ _ Hb) as [Hn0 Hn1]. revert Hb.
  intros (a & b & sb & l0' & l1' & Ha & Hb & Ha1 & Hb1 & Hpart & Hdis & ->)%Build_inv.
  simpl in *. rewrite Ha in Hn0. rewrite Hb in Hn1. simplify_eq.
  exists sb. split; [|done].
  unfold bucketOrder. rewrite Ha. simpl.
  assert (make 0 (len l0') = Done (replicate (Z.to_nat (len l0')) 0)) as ->.
  { apply make_Done. split; [lia|done]. }
  simpl. rewrite len_replicate by lia.
  assert (make ([] : list Z) (len l0') = Done (replicate (Z.to_nat (len l0')) []))
    as ->.
  { apply make_Done. split; [lia|done]. }
  simpl. by rewrite Hpart.
Qed.

(** ** The properties of the table *)

(** C1. After [Build], the key at input position [i] follows the two-level
    path to [i]: with [i0 = hash(0,k) & level0Mask], [seed = level0[i0]] and
    [i1 = hash(seed,k) & level1Mask], [level1[i1] = i]; [Lookup] returns
    [(i, true)] and [keys[i]] is [k].  That the keys are pairwise distinct
    need not be assumed: [Build] returns on no other list ([Build_NoDup]). *)
Theorem Build_membership fuel ks t (i : nat) k :
  Build fuel ks = Done t → ks !! i = Some k →
  ∃ seed,
    let i0 := Z.land (murmurHash 0 k) (level0Mask t) in
    let i1 := Z.land (murmurHash seed k) (level1Mask t) in
    idx_get (level0 t) i0 = Done seed ∧
    idx_get (level1 t) i1 = Done (Z.of_nat i) ∧
    Lookup t k = Done (Z.of_nat i, true) ∧
    keys t !! i = Some k.
Proof.
  intros Hb Hk.
  destruct (Lookup_member _ _ _ _ _ Hb Hk) as (seed & ? & ? & ? & ?).
  exists seed. simpl. by split_and!.
Qed.

(** C2. Over the keys in input order, [Lookup] returns the indices
    [0, 1, ..., n-1] in this order, each found: every index of [[0, n)] is
    returned exactly once. *)
Theorem Build_bijection fuel ks t :
  Build fuel ks = Done t →
  Lookup t <$> ks = (λ i : nat, Done (Z.of_nat i, true)) <$> seq 0 (length ks).
Proof.
  intros Hb. apply list_eq. intros i. rewrite !list_lookup_fmap.
  destruct (ks !! i) as [k|] eqn:Hk; simpl.
  - destruct (Lookup_member _ _ _ _ _ Hb Hk) as (seed & _ & _ & -> & _).
    rewrite lookup_seq_lt; [done|]. by eapply lookup_lt_Some.
  - rewrite lookup_seq_ge; [done|]. by apply lookup_ge_None.
Qed.

(** C3, on the code as it is.  [Build] of no keys returns the table with two
    one-entry index arrays, and [Lookup] on that table panics for every
    query: it reads [keys[0]] of an empty [keys]. *)
Theorem Lookup_empty_table_panics fuel s :
  Build fuel [] = Done (mkTable [] [0] 0 [0] 0) ∧
  Lookup (mkTable [] [0] 0 [0] 0) s = Panic.
Proof. split; [apply Build_nil | apply Lookup_nil_table]. Qed.

(** C4, on the code as it is.  For a query that is none of the keys,
    [Lookup] returns [found = false] when the table holds at least one key,
    and panics when it holds none. *)
Theorem Lookup_absent fuel ks t z :
  Build fuel ks = Done t → z ∉ ks →
  match ks with
  | [] => Lookup t z = Panic
  | _ :: _ => ∃ c, Lookup t z = Done (c, false)
  end.
Proof.
  intros Hb Hz. destruct ks as [|k0 ks'].
  - rewrite Build_nil in Hb. injection Hb as <-. apply Lookup_nil_table.
  - destruct (Lookup_returns _ _ _ z Hb) as (c & k & Hl & Hk); [done|].
    destruct (String.eqb z k) eqn:E; [|by exists c].
    exfalso. apply Hz. by eapply Lookup_found_is_key.
Qed.

(** C9. In a table built from at least one key, every entry of [level1] is
    an index below the number of keys, and [Lookup] returns for every query:
    its read of [keys] is in bounds. *)
Theorem Lookup_in_bounds fuel ks t :
  Build fuel ks = Done t → ks ≠ [] →
  (∀ (m : nat) v, level1 t !! m = Some v → 0 ≤ v < len (keys t)) ∧
  (∀ z, ∃ c k, Lookup t z = Done (c, String.eqb z k) ∧
               idx_get (keys t) c = Done k).
Proof.
  intros Hb Hne. split; [|intros z; by eapply Lookup_returns].
  destruct (Build_facts _ _ _ Hb) as (-> & _ & _ & _ & _ & _ & _ & Hwf & _).
  intros m v Hv. destruct (Hwf _ _ Hv) as [->|(i & k & sd & Hi & -> & _)].
  - destruct ks; [done|]. unfold len. simpl. lia.
  - apply lookup_lt_Some in Hi. pose proof (uint32_range (Z.of_nat i)).
    pose proof (uint32_le (Z.of_nat i)). unfold len. lia.
Qed.

(** C6, as the code has it.  The length of [level0] is [nextPow2] of the
    quotient [n / 4] rounded down, the length of [level1] is [nextPow2 n];
    each is the least power of two that is at least its argument, and at
    least 1; each mask is the length less one. *)
Theorem Build_sizes fuel ks t :
  Build fuel ks = Done t →
  nextPow2 (len ks `quot` 4) = Done (len (level0 t)) ∧
  nextPow2 (len ks) = Done (len (level1 t)) ∧
  leastPow2 (len ks `div` 4) (len (level0 t)) ∧
  leastPow2 (len ks) (len (level1 t)) ∧
  1 ≤ len (level0 t) ∧ 1 ≤ len (level1 t) ∧
  level0Mask t = len (level0 t) - 1 ∧ level1Mask t = len (level1 t) - 1.
Proof.
  intros Hb. destruct (Build_lengths _ _ _ Hb) as [Hn0 Hn1].
  destruct (Build_facts _ _ _ Hb) as (_ & _ & Hl0 & _ & Hl1 & Hp0 & Hp1 & _).
  rewrite Z.quot_div_nonneg in Hp0 by (unfold len; lia).
  split_and!; [done..| | |lia|lia].
  - by eapply leastPow2_pos.
  - by eapply leastPow2_pos.
Qed.

(** C7, as the code has it.  The buckets the solver takes are the non-empty
    buckets, each once, rearranged so that no bucket is larger than one
    taken before it.  [Less] compares sizes only: among buckets of equal
    size the order is the one [sort.Sort] happens to leave. *)
Theorem Build_bucket_order fuel ks t :
  Build fuel ks = Done t →
  ∃ sb,
    bucketOrder ks = Done (sortedBuckets sb) ∧
    displace fuel ks (level1Mask t) (sortedBuckets sb)
      (replicate (Z.to_nat (len (level1 t))) false)
      (replicate (Z.to_nat (len (level0 t))) 0)
      (replicate (Z.to_nat (len (level1 t))) 0) = Done (level0 t, level1 t) ∧
    sortedBuckets sb ≡ₚ collect 0 sb [] ∧
    (∀ b, b ∈ sortedBuckets sb ↔
       ∃ m : nat, sb !! m = Some (vals b) ∧ n b = Z.of_nat m ∧ vals b ≠ []) ∧
    (∀ (i j : nat) a b, (i < j)%nat →
       sortedBuckets sb !! i = Some a → sortedBuckets sb !! j = Some b →
       len (vals b) ≤ len (vals a)).
Proof.
  intros (sb & Hord & Hdis)%Build_bucketOrder. exists sb.
  split_and!; [done|done|apply sort_Sort_perm|apply sortedBuckets_elem|].
  intros i j a b Hij Ha Hb.
  pose proof (sort_Sort_sorted _ i j a b Hij Ha Hb) as Hless.
  unfold Less in Hless. by apply Z.ltb_ge in Hless.
Qed.

End mph.

(** ** Two sorters and a small hash, to run the code

    [insertionSort] keeps buckets of equal size in the order it finds them;
    [insertionSortRev] reverses them.  Both meet the contract of
    [sort.Sort]. *)

Fixpoint insertBucket (b : indexBucket) (s : list indexBucket) : list indexBucket :=
  match s with
  | [] => [b]
  | c :: s' => if Less c b then c :: insertBucket b s' else b :: c :: s'
  end.

Definition insertionSort (s : list indexBucket) : list indexBucket :=
  foldr insertBucket [] s.

Definition insertionSortRev (s : list indexBucket) : list indexBucket :=
  insertionSort (reverse s).

Definition notLess (a b : indexBucket) : Prop := Less b a = false.

Lemma notLess_trans a b c : notLess a b → notLess b c → notLess a c.
Proof. unfold notLess, Less. rewrite !Z.ltb_ge. lia. Qed.

Lemma insertBucket_perm b s : insertBucket b s ≡ₚ b :: s.
Proof.
  induction s as [|c s IH]; simpl; [done|].
  destruct (Less c b); [|done].
  rewrite IH. apply Permutation_swap.
Qed.

Lemma insertionSort_perm s : insertionSort s ≡ₚ s.
Proof.
  induction s as [|b s IH]; simpl; [done|].
  unfold insertionSort in *. simpl. rewrite insertBucket_perm. by rewrite IH.
Qed.

Lemma insertBucket_sorted b s :
  StronglySorted notLess s → StronglySorted notLess (insertBucket b s).
Proof.
  induction 1 as [|c s Hs IH Hc]; simpl.
  - repeat constructor.
  - destruct (Less c b) eqn:E.
    + constructor; [done|].
      rewrite insertBucket_perm. constructor; [|done].
      unfold notLess, Less in *. rewrite Z.ltb_ge. apply Z.ltb_lt in E. lia.
    + constructor; [by constructor|].
      constructor; [done|].
      eapply Forall_impl; [exact Hc|].
      intros d Hd. by eapply notLess_trans.
Qed.

Lemma insertionSort_sorted s : StronglySorted notLess (insertionSort s).
Proof.
  induction s as [|b s IH]; [constructor|]. by apply insertBucket_sorted.
Qed.

Lemma StronglySorted_lookup {A} (R : relation A) (l : list A) (i j : nat) a b :
  StronglySorted R l → (i < j)%nat → l !! i = Some a → l !! j = Some b → R a b.
Proof.
  intros Hl. revert i j. induction Hl as [|c l Hl IH Hc]; intros i j Hij Hi Hj.
  - done.
  - destruct j as [|j]; [lia|]. destruct i as [|i]; simpl in *.
    + simplify_eq. rewrite Forall_forall in Hc. apply Hc.
      by eapply list_elem_of_lookup_2.
    + apply (IH i j); [lia|done..].
Qed.

#[global] Program Instance insertionSorter : Sorter :=
  {| sort_Sort := insertionSort |}.
Next Obligation. apply insertionSort_perm. Qed.
Next Obligation.
  intros s i j a b Hij Ha Hb.
  exact (StronglySorted_lookup notLess _ i j a b (insertionSort_sorted s) Hij Ha Hb).
Qed.

Fixpoint toyMix (mul acc : Z) (s : string) : Z :=
  match s with
  | EmptyString => acc
  | String c s' =>
      toyMix mul (uint32 (Z.lxor acc (Z.of_N (Ascii.N_of_ascii c)) * mul)) s'
  end.

Definition toyHash (seed : Z) (s : string) : Z :=
  let h := toyMix (2 * seed + 31) (seed + 7) s in
  uint32 (Z.lxor h (Z.shiftr h 5)).

#[global] Program Instance toyMurmur : Murmur := {| murmurHash := toyHash |}.
Next Obligation. intros. apply uint32_range. Qed.

Lemma insertionSortRev_perm s : insertionSortRev s ≡ₚ s.
Proof.
  unfold insertionSortRev. rewrite insertionSort_perm. apply reverse_Permutation.
Qed.

Program Definition reverseSorter : Sorter :=
  {| sort_Sort := insertionSortRev |}.
Next Obligation. apply insertionSortRev_perm. Qed.
Next Obligation.
  intros s i j a b Hij Ha Hb.
  exact (StronglySorted_lookup notLess _ i j a b
           (insertionSort_sorted (reverse s)) Hij Ha Hb).
Qed.

(** ** Running the code: the tables of three small key lists *)

Definition xyz : list string := ["x"; "y"; "z"].
Definition xyzTable : Table := mkTable xyz [4] 0 [1; 0; 2; 1] 3.

Definition five : list string := ["a"; "b"; "c"; "d"; "e"].
Definition fiveTable : Table := mkTable five [2] 0 [3; 0; 4; 0; 1; 2; 0; 1] 7.

Definition langs : list string :=
  ["go"; "rust"; "perl"; "ada"; "java"; "lisp"; "caml"; "ruby"].
Definition langsTable : Table :=
  mkTable langs [4; 236] 1 [2; 7; 1; 5; 4; 6; 3; 0] 7.

Example Build_xyz : Build 5 xyz = Done xyzTable.
Proof. vm_compute. reflexivity. Qed.

Example Build_five : Build 5 five = Done fiveTable.
Proof. vm_compute. reflexivity. Qed.

Example Build_langs : Build 256 langs = Done langsTable.
Proof. vm_compute. reflexivity. Qed.

(** With seeds 0 to 3 the keys ["x"] and ["z"] share a slot; seed 4 separates
    the three keys. *)
Example xyz_slots :
  (λ seed, slotOf 3 seed <$> xyz) <$> [0; 1; 2; 3; 4] =
  [[2; 0; 2]; [3; 1; 3]; [0; 2; 0]; [1; 3; 1]; [1; 0; 2]].
Proof. vm_compute. reflexivity. Qed.

(** Too few seeds: the search does not finish. *)
Example Build_xyz_spin : Build 4 xyz = Spin.
Proof. vm_compute. reflexivity. Qed.

(** A repeated key never leaves the seed search. *)
Example Build_repeated_key_spin : Build 200 ["x"; "x"] = Spin.
Proof. vm_compute. reflexivity. Qed.

(** ** Witnesses and counterexamples *)

Lemma Build_membership_witness :
  Build 5 xyz = Done xyzTable ∧
  ∃ seed,
    idx_get (level0 xyzTable)
      (Z.land (murmurHash 0 "y") (level0Mask xyzTable)) = Done seed ∧
    idx_get (level1 xyzTable)
      (Z.land (murmurHash seed "y") (level1Mask xyzTable)) = Done 1 ∧
    Lookup xyzTable "y" = Done (1, true) ∧
    keys xyzTable !! 1%nat = Some "y".
Proof.
  split; [vm_compute; reflexivity|].
  apply (Build_membership 5 xyz xyzTable 1 "y");
    [vm_compute; reflexivity | reflexivity].
Defined.

Lemma Build_bijection_witness :
  Build 5 xyz = Done xyzTable ∧
  Lookup xyzTable <$> xyz = [Done (0, true); Done (1, true); Done (2, true)].
Proof.
  split; [vm_compute; reflexivity|].
  apply (Build_bijection 5 xyz xyzTable). vm_compute. reflexivity.
Defined.

Lemma Lookup_absent_witness :
  Build 0 [] = Done (mkTable [] [0] 0 [0] 0) ∧
  Lookup (mkTable [] [0] 0 [0] 0) "a" = Panic.
Proof.
  split; [vm_compute; reflexivity|].
  apply (Lookup_absent 0 [] (mkTable [] [0] 0 [0] 0) "a");
    [vm_compute; reflexivity | apply not_elem_of_nil].
Defined.

Lemma Lookup_in_bounds_witness :
  Build 5 xyz = Done xyzTable ∧
  (∀ (m : nat) v, level1 xyzTable !! m = Some v → 0 ≤ v < len (keys xyzTable)) ∧
  (∀ z, ∃ c k, Lookup xyzTable z = Done (c, String.eqb z k) ∧
               idx_get (keys xyzTable) c = Done k).
Proof.
  split; [vm_compute; reflexivity|].
  apply (Lookup_in_bounds 5 xyz xyzTable); [vm_compute; reflexivity | discriminate].
Defined.

Lemma Build_sizes_witness :
  Build 5 five = Done fiveTable ∧
  nextPow2 (len five `quot` 4) = Done (len (level0 fiveTable)).
Proof.
  split; [vm_compute; reflexivity|].
  apply (Build_sizes 5 five fiveTable). vm_compute. reflexivity.
Defined.

Lemma Build_bucket_order_witness :
  Build 256 langs = Done langsTable ∧
  ∃ sb, bucketOrder langs = Done (sortedBuckets sb).
Proof.
  split; [vm_compute; reflexivity|].
  destruct (Build_bucket_order 256 langs langsTable) as (sb & Hsb & _);
    [vm_compute; reflexivity|].
  by exists sb.
Defined.

(** C5 fails on the code as stated: in the table of ["x"; "y"; "z"] slot 3
    of [level1] is the slot of no key, and it holds 1, written by the trial
    of seed 3 that was given up, not the initial 0. *)
Lemma level1_stale_slot :
  ∃ t, Build 5 xyz = Done t ∧
       level1 t !! 3%nat = Some 1 ∧
       ∀ k, k ∈ xyz → ∀ seed,
         idx_get (level0 t) (bucketOf (level0Mask t) k) = Done seed →
         slotOf (level1Mask t) seed k ≠ 3.
Proof.
  exists xyzTable. split; [vm_compute; reflexivity|]. split; [reflexivity|].
  intros k Hk seed. unfold xyz in Hk.
  repeat (apply elem_of_cons in Hk as [->|Hk]);
    [| | |by apply elem_of_nil in Hk];
    intros Hseed; vm_compute in Hseed; injection Hseed as <-;
    vm_compute; discriminate.
Qed.

(** C6 fails on the code as stated: five keys give a [level0] of length 1,
    below the quotient 5/4 rounded up. *)
Lemma level0_below_ceiling :
  ∃ t, Build 5 five = Done t ∧ len (level0 t) = 1 ∧
       len (level0 t) < (len five + 3) `div` 4.
Proof.
  exists fiveTable. split; [vm_compute; reflexivity|]. split; [reflexivity|].
  vm_compute. reflexivity.
Qed.

(** ** Who owns the bytes of [keys]

    Above, a key is the bytes it holds while [Build] runs.  Ownership is
    about the arrays behind them.  A [string] cannot be changed; a [[]byte]
    refers to an array its holder may overwrite.  Here the arrays live in a
    [heap], a [[]byte] is the address of its array, and [pool] holds
    addresses.  [Build] is instantiated at [string] or at [[]byte]; the
    conversion [[]byte(s)] of line 33 allocates a copy of a [string] and is
    the identity on a [[]byte]. *)

Abbreviation addr := nat (only parsing).
Abbreviation heap := (list string) (only parsing).

Inductive keyType := TString | TBytes.

Definition keyOf (T : keyType) : Type :=
  match T with TString => string | TBytes => addr end.

Definition deref (h : heap) (a : addr) : res string :=
  match h !! a with Some s => Done s | None => Panic end.

(** The bytes of a key, as [murmurHash] and the comparison read them. *)
Definition bytesOf (T : keyType) (h : heap) : keyOf T → res string :=
  match T with
  | TString => λ s, Done s
  | TBytes => λ a, deref h a
  end.

(** [[]byte(s)]. *)
Definition toBytes (T : keyType) (h : heap) : keyOf T → addr * heap :=
  match T with
  | TString => λ s, (length h, h ++ [s])
  | TBytes => λ a, (a, h)
  end.

(** [pool = append(pool, []byte(s))] over the keys. *)
Fixpoint poolOf (T : keyType) (keys : list (keyOf T)) (pool : list addr)
    (h : heap) : list addr * heap :=
  match keys with
  | [] => (pool, h)
  | s :: keys' =>
      let '(a, h') := toBytes T h s in poolOf T keys' (pool ++ [a]) h'
  end.

Fixpoint mapRes {A B} (f : A → res B) (l : list A) : res (list B) :=
  match l with
  | [] => Done []
  | a :: l' => b ← f a; bs ← mapRes f l'; Done (b :: bs)
  end.

(** A table whose [keys] are references; the index arrays are those of
    [Table]. *)
Record RefTable := mkRefTable {
  keyRefs : list addr;
  arrays : Table
}.

(** The bytes the table's keys hold in heap [h]. *)
Definition contents (h : heap) (rt : RefTable) : res (list string) :=
  mapRes (deref h) (keyRefs rt).

(** The table as [Lookup] sees it in heap [h]. *)
Definition view (h : heap) (rt : RefTable) : res Table :=
  ks ← contents h rt;
  Done (mkTable ks (level0 (arrays rt)) (level0Mask (arrays rt))
          (level1 (arrays rt)) (level1Mask (arrays rt))).

Section ownership.
Context `{Murmur} `{Sorter}.

(** [Build] with the storage of [pool] made explicit: the index arrays are
    computed from the bytes the keys hold in [h]. *)
Definition BuildRef (fuel : nat) (T : keyType) (keys : list (keyOf T))
    (h : heap) : res (RefTable * heap) :=
  ks ← mapRes (bytesOf T h) keys;
  t ← Build fuel ks;
  let '(pool, h') := poolOf T keys [] h in
  Done (mkRefTable pool t, h').

Definition LookupRef (h : heap) (rt : RefTable) (s : string) : res (Z * bool) :=
  t ← view h rt; Lookup t s.

Lemma mapRes_Done {A B} (f : A → res B) l bs :
  mapRes f l = Done bs ↔ Forall2 (λ a b, f a = Done b) l bs.
Proof.
  revert bs. induction l as [|a l IH]; intros bs; simpl.
  - split; [intros [= <-]; constructor | by intros ->%Forall2_nil_inv_l].
  - split.
    + intros (b & Hb & (bs' & Hbs & [= <-])%bind_Done)%bind_Done.
      constructor; [done | by apply IH].
    + intros (b & bs' & Hb & Hbs & ->)%Forall2_cons_inv_l.
      rewrite Hb. simpl. apply IH in Hbs as ->. done.
Qed.

(** At [string], every reference of [pool] is to an array allocated by
    [Build], past the caller's heap, and holds the key's bytes. *)
Lemma poolOf_string keys pool h pool' h' :
  poolOf TString keys pool h = (pool', h') →
  h' = h ++ keys ∧ pool' = pool ++ seq (length h) (length keys).
Proof.
  revert pool h. induction keys as [|s keys IH]; intros pool h E; simpl in E.
  - simplify_eq. by rewrite !app_nil_r.
  - apply IH in E as [-> ->]. rewrite length_app. simpl.
    rewrite <- !app_assoc. simpl. split; [done|].
    do 3 f_equal. lia.
Qed.

Lemma derefs_fresh (h ks : list string) :
  mapRes (deref (h ++ ks)) (seq (length h) (length ks)) = Done ks.
Proof.
  apply mapRes_Done. revert h. induction ks as [|k ks IH]; intros h; simpl.
  - constructor.
  - constructor.
    + cbv beta. unfold deref. by rewrite list_lookup_middle.
    + specialize (IH (h ++ [k])). rewrite length_app in IH. simpl in IH.
      rewrite <- app_assoc in IH. simpl in IH.
      by replace (S (length h)) with (length h + 1)%nat by lia.
Qed.

(** The [string] instance owns its keys: whatever the caller writes at an
    address it held before [Build], the table's keys read the same. *)
Lemma BuildRef_string_owned fuel keys h rt h' :
  BuildRef fuel TString keys h = Done (rt, h') →
  contents h' rt = Done keys ∧
  ∀ (a : addr) s, (a < length h)%nat →
    contents (<[a := s]> h') rt = Done keys.
Proof.
  unfold BuildRef. intros (ks & Hks & (t & Ht & E)%bind_Done)%bind_Done.
  destruct (poolOf TString keys [] h) as [pool h1] eqn:Hpool.
  apply poolOf_string in Hpool as [-> ->]. simplify_eq. unfold contents. simpl.
  split; [apply derefs_fresh|].
  intros a s Ha. rewrite insert_app_l by done.
  rewrite <- (length_insert h a s). apply derefs_fresh.
Qed.
(** The table of one key: every hash sends the key to slot 0 of either
    array. *)
Lemma Build_singleton fuel k :
  Build (S fuel) [k] = Done (mkTable [k] [0] 0 [0] 0).
Proof.
  unfold Build. simpl. rewrite Z.land_0_r. simpl.
  unfold sortedBuckets. simpl.
  pose proof (sort_Sort_perm [mkBucket 0 [0]]) as ->%Permutation_singleton_r.
  simpl. rewrite Z.land_0_r. simpl. reflexivity.
Qed.

Lemma Lookup_singleton k s :
  Lookup (mkTable [k] [0] 0 [0] 0) s = Done (0, String.eqb s k).
Proof. unfold Lookup. simpl. rewrite Z.land_0_r. simpl. by rewrite Z.land_0_r. Qed.

(** C10, on the code as it is.  Built at [[]byte] from the caller's slice at
    address 0, holding ["a"], the table's key is that very slice: when the
    caller then writes ["z"] into it, the table's key reads ["z"], the key
    that was built in is no longer found, and one never built in is.  This
    holds whatever the hash. *)
Theorem bytes_keys_alias_caller fuel :
  let h0 : heap := ["a"] in
  let h1 : heap := <[0%nat := "z"]> h0 in
  let rt := mkRefTable [0%nat] (mkTable ["a"] [0] 0 [0] 0) in
  BuildRef (S fuel) TBytes [0%nat] h0 = Done (rt, h0) ∧
  contents h0 rt = Done ["a"] ∧
  contents h1 rt = Done ["z"] ∧
  LookupRef h0 rt "a" = Done (0, true) ∧
  LookupRef h1 rt "a" = Done (0, false) ∧
  LookupRef h1 rt "z" = Done (0, true).
Proof.
  intros h0 h1 rt. split_and!; [|done|done|..].
  - unfold BuildRef. simpl. by rewrite Build_singleton.
  - unfold LookupRef. simpl. by rewrite Lookup_singleton.
  - unfold LookupRef. simpl. by rewrite Lookup_singleton.
  - unfold LookupRef. simpl. by rewrite Lookup_singleton.
Qed.

(** The same keys passed as [string]s: the table holds copies, at an address
    of its own, and the caller's write does not reach them. *)
Example string_keys_are_copied fuel :
  let h0 : heap := ["a"] in
  ∃ rt h', BuildRef (S fuel) TString ["a"] h0 = Done (rt, h') ∧
           keyRefs rt = [1%nat] ∧
           contents (<[0%nat := "z"]> h') rt = Done ["a"].
Proof.
  intros h0. do 2 eexists. split_and!.
  - unfold BuildRef. simpl. by rewrite Build_singleton.
  - done.
  - done.
Qed.
End ownership.

(** * Further properties of the code *)

(** ** [nextPow2] at the edges *)

Lemma nextPow2_loop_zero_spin rounds n : 0 < n → nextPow2_loop rounds 0 n = Spin.
Proof.
  intros Hn. induction rounds as [|r IH]; simpl; [done|].
  destruct (Z.leb_spec n 0); [lia|]. exact IH.
Qed.

Lemma nextPow2_loop_overflow rounds (k : nat) n :
  (k ≤ 62)%nat → 2 ^ 62 < n → nextPow2_loop rounds (2 ^ Z.of_nat k) n = Spin.
Proof.
  revert k. induction rounds as [|r IH]; intros k Hk Hn; simpl; [done|].
  assert (2 ^ Z.of_nat k ≤ 2 ^ 62) by (apply Z.pow_le_mono_r; lia).
  destruct (Z.leb_spec n (2 ^ Z.of_nat k)); [lia|].
  destruct (decide (k = 62%nat)) as [->|Hk'].
  - change (wrap_int (2 ^ Z.of_nat 62 * 2)) with (- 2 ^ 63).
    destruct r as [|r]; simpl; [done|].
    destruct (Z.leb_spec n (- 2 ^ 63)); [lia|].
    change (wrap_int (- 2 ^ 63 * 2)) with 0.
    apply nextPow2_loop_zero_spin. lia.
  - assert (2 ^ Z.of_nat k * 2 = 2 ^ Z.of_nat (S k)) as ->.
    { rewrite Nat2Z.inj_succ, Z.pow_succ_r; lia. }
    rewrite wrap_int_small; [apply IH; [lia|done]|].
    split.
    { assert (0 < 2 ^ Z.of_nat (S k)) by (apply Z.pow_pos_nonneg; lia). lia. }
    apply Z.pow_lt_mono_r; lia.
Qed.

(** X1. On every [n] up to [2^62], [nextPow2] returns the least power of two
    that is at least [n]: 1 when [n] is at most 1 (zero and negative
    arguments included), and otherwise a value below [2 n]. *)
Theorem nextPow2_returns n :
  n ≤ 2 ^ 62 →
  ∃ p, nextPow2 n = Done p ∧ leastPow2 n p ∧
       (n ≤ 1 → p = 1) ∧ (1 ≤ n → p < 2 * n).
Proof.
  intros Hn. destruct (nextPow2_total n Hn) as [p Hp]. exists p.
  pose proof (nextPow2_spec _ _ Hp) as Hl. split_and!; [done|done| |].
  - intros H1. destruct Hl as (k & -> & _ & [->|Hk]); [done|].
    destruct k as [|k]; [done|].
    assert (0 < 2 ^ (Z.of_nat (S k) - 1)) by (apply Z.pow_pos_nonneg; lia). lia.
  - intros H1. destruct Hl as (k & -> & _ & [->|Hk]); [simpl; lia|].
    destruct k as [|k]; [simpl; lia|].
    replace (Z.of_nat (S k)) with (Z.succ (Z.of_nat (S k) - 1)) at 1 by lia.
    rewrite Z.pow_succ_r by lia. lia.
Qed.

(** X2. Above [2^62] the doubling wraps past the largest [int] to a negative
    value and then to 0, where it stays: the loop of [nextPow2] never
    returns, however many rounds it is given. *)
Theorem nextPow2_overflow n rounds :
  2 ^ 62 < n → nextPow2 n = Spin ∧ nextPow2_loop rounds 1 n = Spin.
Proof.
  intros Hn. split.
  - apply (nextPow2_loop_overflow 66 0); [lia|done].
  - apply (nextPow2_loop_overflow rounds 0); [lia|done].
Qed.

(** ** The methods of [bySize]

    [Len], [Less] and [Swap] as [sort.Sort] calls them, on indices of the
    slice. *)

Definition Len (s : list indexBucket) : Z := len s.

(** [func (s bySize) Less(i, j int) bool]. *)
Definition LessAt (s : list indexBucket) (i j : Z) : res bool :=
  a ← idx_get s i; b ← idx_get s j; Done (Less a b).

(** [func (s bySize) Swap(i, j int) { s[i], s[j] = s[j], s[i] }]: both
    operands are read, then both are written. *)
Definition Swap (s : list indexBucket) (i j : Z) : res (list indexBucket) :=
  a ← idx_get s i;
  b ← idx_get s j;
  s' ← idx_set s i b;
  idx_set s' j a.

Lemma idx_get_Panic {A} (l : list A) i :
  idx_get l i = Panic ↔ ¬ (0 ≤ i < len l).
Proof.
  split.
  - intros E Hi. destruct (idx_get_in_range l i Hi) as [a Ha]. congruence.
  - intros Hi. unfold idx_get. destruct (Z.ltb_spec i 0); [done|].
    destruct (l !! Z.to_nat i) eqn:E; [|done].
    apply lookup_lt_Some in E. unfold len in Hi. lia.
Qed.

(** X3. [Swap] returns exactly when both indices are inside the slice, and
    panics otherwise.  When it returns, the two entries have changed places,
    every other entry is where it was, and the result is a rearrangement of
    the same buckets, of the same [Len]. *)
Theorem Swap_exchanges s i j :
  (0 ≤ i < Len s ∧ 0 ≤ j < Len s →
     ∃ s', Swap s i j = Done s' ∧ Len s' = Len s ∧ s' ≡ₚ s ∧
           idx_get s' i = idx_get s j ∧ idx_get s' j = idx_get s i ∧
           ∀ m, m ≠ i → m ≠ j → idx_get s' m = idx_get s m) ∧
  (¬ (0 ≤ i < Len s ∧ 0 ≤ j < Len s) → Swap s i j = Panic).
Proof.
  unfold Len. split.
  - intros [Hi Hj].
    destruct (idx_get_in_range s i Hi) as [a Ha].
    destruct (idx_get_in_range s j Hj) as [b Hb].
    exists (<[Z.to_nat j := a]> (<[Z.to_nat i := b]> s)).
    assert (Swap s i j = Done (<[Z.to_nat j := a]> (<[Z.to_nat i := b]> s))) as Hsw.
    { unfold Swap. rewrite Ha, Hb. simpl.
      rewrite (proj2 (idx_set_Done s _ i b) (conj Hi eq_refl)). simpl.
      apply idx_set_Done. split; [|done]. unfold len in *.
      by rewrite length_insert. }
    apply idx_get_Done in Ha as [_ Ha]. apply idx_get_Done in Hb as [_ Hb].
    assert (∀ m : Z, idx_get (<[Z.to_nat j := a]> (<[Z.to_nat i := b]> s)) m =
              if decide (m = j) then Done a
              else if decide (m = i) then Done b else idx_get s m) as Hget.
    { intros m. unfold idx_get. destruct (Z.ltb_spec m 0) as [Hm|Hm].
      { repeat case_decide; try lia; done. }
      destruct (decide (m = j)) as [->|Hmj].
      { rewrite list_lookup_insert_eq; [done|].
        rewrite length_insert. unfold len in Hj. lia. }
      rewrite list_lookup_insert_ne by lia.
      destruct (decide (m = i)) as [->|Hmi].
      { rewrite list_lookup_insert_eq; [done|]. unfold len in Hi. lia. }
      by rewrite list_lookup_insert_ne by lia. }
    split_and!; [done| | | | |].
    + unfold len. by rewrite !length_insert.
    + apply Permutation_inj. split; [by rewrite !length_insert|].
      exists (λ m, if decide (m = Z.to_nat j) then Z.to_nat i
                   else if decide (m = Z.to_nat i) then Z.to_nat j else m).
      split.
      * intros m1 m2 Hm. repeat case_decide; lia.
      * intros m. destruct (decide (m = Z.to_nat j)) as [->|Hmj].
        { rewrite list_lookup_insert_eq; [done|].
          rewrite length_insert. unfold len in Hj. lia. }
        rewrite list_lookup_insert_ne by done.
        destruct (decide (m = Z.to_nat i)) as [->|Hmi].
        { rewrite list_lookup_insert_eq; [done|]. unfold len in Hi. lia. }
        by rewrite list_lookup_insert_ne by done.
    + rewrite Hget. case_decide; [subst|].
      * symmetry. apply idx_get_Done. split; [lia|done].
      * rewrite decide_True by done. symmetry. apply idx_get_Done.
        split; [lia|done].
    + rewrite Hget, decide_True by done. symmetry. apply idx_get_Done.
      split; [lia|done].
    + intros m Hmi Hmj. rewrite Hget. by rewrite !decide_False by done.
  - intros Hout. unfold Swap.
    destruct (idx_get s i) as [a| |] eqn:Ha; simpl; [|done|].
    + destruct (idx_get s j) as [b| |] eqn:Hb; simpl; [|done|].
      * exfalso. apply Hout. split; by eapply idx_get_lt.
      * unfold idx_get in Hb. destruct (j <? 0); [done|].
        by destruct (s !! Z.to_nat j).
    + unfold idx_get in Ha. destruct (i <? 0); [done|].
      by destruct (s !! Z.to_nat i).
Qed.

(** X4. On indices inside the slice [Less] returns, and it orders the
    buckets strictly by size, larger first: no bucket is before itself, the
    order is transitive, and so is being of equal size.  This is what
    [sort.Sort] asks of a [Less]. *)
Theorem Less_strict_weak_order s :
  (∀ i j, 0 ≤ i < Len s → 0 ≤ j < Len s → ∃ r, LessAt s i j = Done r) ∧
  (∀ i, LessAt s i i ≠ Done true) ∧
  (∀ i j k, LessAt s i j = Done true → LessAt s j k = Done true →
     LessAt s i k = Done true) ∧
  (∀ i j k, LessAt s i j = Done false → LessAt s j k = Done false →
     LessAt s i k = Done false).
Proof.
  unfold Len, LessAt. split_and!.
  - intros i j Hi Hj.
    destruct (idx_get_in_range s i Hi) as [a ->].
    destruct (idx_get_in_range s j Hj) as [b ->]. simpl. by eexists.
  - intros i E. apply bind_Done in E as (a & Ha & E). rewrite Ha in E. simpl in E.
    injection E as E. unfold Less in E. lia.
  - intros i j k E1 E2.
    apply bind_Done in E1 as (a & Ha & (b & Hb & [= E1])%bind_Done).
    apply bind_Done in E2 as (b' & Hb' & (c & Hc & [= E2])%bind_Done).
    rewrite Hb in Hb'. simplify_eq. rewrite Ha, Hc. simpl. f_equal.
    unfold Less in *. lia.
  - intros i j k E1 E2.
    apply bind_Done in E1 as (a & Ha & (b & Hb & [= E1])%bind_Done).
    apply bind_Done in E2 as (b' & Hb' & (c & Hc & [= E2])%bind_Done).
    rewrite Hb in Hb'. simplify_eq. rewrite Ha, Hc. simpl. f_equal.
    unfold Less in *. lia.
Qed.

(** ** [Build] never panics *)

Lemma nextPow2_loop_no_panic rounds i n : nextPow2_loop rounds i n ≠ Panic.
Proof.
  revert i. induction rounds as [|r IH]; intros i; simpl; [done|].
  destruct (n <=? i); [done|apply IH].
Qed.

Lemma idx_set_in_range {A} (l : list A) i a :
  0 ≤ i < len l → idx_set l i a = Done (<[Z.to_nat i := a]> l).
Proof. intros Hi. by apply idx_set_Done. Qed.

Lemma make_nonneg {A} (d : A) z :
  0 ≤ z → make d z = Done (replicate (Z.to_nat z) d).
Proof. intros Hz. unfold make. destruct (Z.ltb_spec z 0); [lia|done]. Qed.

Lemma release_returns tmp (occ : list bool) :
  (∀ z, z ∈ tmp → 0 ≤ z < len occ) → ∃ occ', release tmp occ = Done occ'.
Proof.
  revert occ. induction tmp as [|z tmp IH]; intros occ Hin; simpl; [by eexists|].
  rewrite idx_set_in_range by (apply Hin; by left). simpl.
  apply IH. intros z' Hz'. unfold len. rewrite length_insert.
  apply Hin. by right.
Qed.

Section no_panic.
Context `{Murmur} `{Sorter}.

Lemma partition_returns mask i ks (sb : list (list Z)) pool :
  0 ≤ mask → len sb = mask + 1 →
  ∃ r, partition mask i ks sb pool = Done r.
Proof.
  intros Hm. revert i sb pool. induction ks as [|s ks IH]; intros i sb pool Hl;
    simpl; [by eexists|].
  pose proof (land_mask_range (murmurHash 0 s) mask
                (proj1 (murmurHash_range 0 s)) Hm) as Hr.
  destruct (idx_get_in_range sb (Z.land (murmurHash 0 s) mask)) as [vs ->]; [lia|].
  simpl. rewrite idx_set_in_range by lia. simpl. apply IH. unfold len in *. by rewrite length_insert.
Qed.

Lemma place_returns ks mask seed vs (occ : list bool) tmp (l1 : list Z) :
  0 ≤ mask → len occ = mask + 1 → len l1 = mask + 1 →
  (∀ i, i ∈ vs → 0 ≤ i < len ks) → (∀ z, z ∈ tmp → 0 ≤ z < len occ) →
  ∃ r, place ks mask seed vs occ tmp l1 = Done r.
Proof.
  intros Hm. revert occ tmp l1.
  induction vs as [|i vs IH]; intros occ tmp l1 Ho Hl Hvs Htmp; simpl;
    [by eexists|].
  destruct (idx_get_in_range ks i) as [k ->]; [apply Hvs; by left|]. simpl.
  pose proof (land_mask_range (murmurHash seed k) mask
                (proj1 (murmurHash_range seed k)) Hm) as Hr.
  destruct (idx_get_in_range occ (Z.land (murmurHash seed k) mask)) as [o ->];
    [lia|].
  simpl. destruct o.
  - destruct (release_returns tmp occ Htmp) as [occ' ->]. simpl. by eexists.
  - rewrite !idx_set_in_range by lia. simpl. apply IH.
    + unfold len in *. by rewrite length_insert.
    + unfold len in *. by rewrite length_insert.
    + intros j Hj. apply Hvs. by right.
    + intros z [Hz| ->%list_elem_of_singleton]%elem_of_app.
      * unfold len. rewrite length_insert. by apply Htmp.
      * unfold len in *. rewrite length_insert. lia.
Qed.

Lemma trySeed_no_panic fuel ks mask seed vs (occ : list bool) (l1 : list Z) :
  0 ≤ mask → len occ = mask + 1 → len l1 = mask + 1 →
  (∀ i, i ∈ vs → 0 ≤ i < len ks) →
  trySeed fuel ks mask seed vs occ l1 ≠ Panic.
Proof.
  intros Hm. revert seed occ l1.
  induction fuel as [|fuel IH]; intros seed occ l1 Ho Hl Hvs; simpl; [done|].
  destruct (place_returns ks mask seed vs occ [] l1 Hm Ho Hl Hvs)
    as [[[ok occ1] l1_1] Hp]; [by intros z ?%elem_of_nil|].
  rewrite Hp. simpl. destruct ok; [done|].
  apply place_frame in Hp as (Hlo & Hll & _).
  apply IH; [|  |done]; unfold len in *; congruence.
Qed.

Lemma displace_no_panic fuel ks mask bs (occ : list bool) (l0 l1 : list Z) :
  0 ≤ mask → len occ = mask + 1 → len l1 = mask + 1 →
  (∀ b, b ∈ bs → 0 ≤ n b < len l0 ∧ ∀ i, i ∈ vals b → 0 ≤ i < len ks) →
  displace fuel ks mask bs occ l0 l1 ≠ Panic.
Proof.
  intros Hm. revert occ l0 l1.
  induction bs as [|b bs IH]; intros occ l0 l1 Ho Hl Hbs; simpl; [done|].
  destruct (Hbs b) as [Hn Hvs]; [by left|].
  pose proof (trySeed_no_panic fuel ks mask 0 (vals b) occ l1 Hm Ho Hl Hvs) as Hnp.
  destruct (trySeed fuel ks mask 0 (vals b) occ l1)
    as [[[seed occ1] l1_1]| |] eqn:Htry; simpl; [|done|done].
  apply trySeed_spec in Htry as (_ & Hlo & Hll & _); [|lia].
  rewrite idx_set_in_range by done. simpl.
  apply IH.
  - unfold len in *. congruence.
  - unfold len in *. congruence.
  - intros b' Hb'. unfold len. rewrite length_insert. apply Hbs. by right.
Qed.

(** Keys in the buckets are positions of the key list, and bucket indices
    are positions of [level0]. *)
Lemma sortedBuckets_in_range a ks sb b :
  partition (a - 1) 0 ks (replicate (Z.to_nat a) []) [] = Done (sb, ks) →
  1 ≤ a → b ∈ sortedBuckets sb →
  0 ≤ n b < a ∧
  ∀ i, i ∈ vals b → 0 ≤ i < len ks ∧
    ∃ k, idx_get ks i = Done k ∧ bucketOf (a - 1) k = n b.
Proof.
  intros (_ & Hlsb & _ & Hmem)%partition_spec Ha
    (m & Hm & Hn & _)%sortedBuckets_elem.
  rewrite length_replicate in Hlsb. pose proof (lookup_lt_Some _ _ _ Hm) as Hlt.
  split; [lia|]. intros i Hi.
  apply (Hmem m [] (vals b)) in Hi as [?%elem_of_nil|(j & k & Hj & -> & Hb)];
    [done| |apply lookup_replicate_2; lia|done].
  pose proof (lookup_lt_Some _ _ _ Hj). split; [unfold len; lia|].
  exists k. split; [|lia]. apply idx_get_Done. split; [lia|].
  by rewrite Z.add_0_l, Nat2Z.id.
Qed.

Lemma Build_no_panic fuel ks : Build fuel ks ≠ Panic.
Proof.
  unfold Build.
  destruct (nextPow2 (len ks `quot` 4)) as [a| |] eqn:Ha; simpl;
    [|by apply nextPow2_loop_no_panic in Ha|done].
  pose proof (leastPow2_pos _ _ (nextPow2_spec _ _ Ha)) as Ha1.
  rewrite (make_nonneg 0 a) by lia. simpl.
  destruct (nextPow2 (len ks)) as [b| |] eqn:Hb; simpl;
    [|by apply nextPow2_loop_no_panic in Hb|done].
  pose proof (leastPow2_pos _ _ (nextPow2_spec _ _ Hb)) as Hb1.
  rewrite (make_nonneg 0 b) by lia. simpl.
  rewrite !len_replicate by lia.
  rewrite (make_nonneg [] a) by lia. simpl.
  destruct (partition_returns (a - 1) 0 ks (replicate (Z.to_nat a) []) [])
    as [[sb pool] Hp]; [lia|rewrite len_replicate; lia|].
  rewrite Hp. simpl.
  rewrite (make_nonneg false b) by lia. simpl.
  pose proof (partition_spec _ _ _ _ _ _ _ Hp) as (Hpool & _). simpl in Hpool.
  subst pool.
  pose proof (displace_no_panic fuel ks (b - 1) (sortedBuckets sb)
                (replicate (Z.to_nat b) false) (replicate (Z.to_nat a) 0)
                (replicate (Z.to_nat b) 0)) as Hd.
  destruct (displace fuel ks (b - 1) (sortedBuckets sb) _ _ _)
    as [[l0' l1']| |]; simpl; [done| |done].
  exfalso. apply Hd; [lia|rewrite len_replicate; lia|rewrite len_replicate; lia| |done].
  intros bk Hbk. rewrite len_replicate by lia.
  destruct (sortedBuckets_in_range _ _ _ _ Hp Ha1 Hbk) as [Hn Hvs].
  split; [done|]. intros i Hi. by apply Hvs.
Qed.

(** X5. [Build] never panics: on every list of keys, and however many seeds
    it may try, each index expression it evaluates is inside its slice.  It
    returns a table or is still searching. *)
Theorem Build_never_panics fuel ks :
  Build fuel ks = Spin ∨ ∃ t, Build fuel ks = Done t.
Proof.
  pose proof (Build_no_panic fuel ks).
  destruct (Build fuel ks) as [t| |]; [right; by exists t|done|by left].
Qed.

(** X6. A key that occurs twice keeps [Build] searching for ever: the two
    occurrences fall in the same bucket and, under every seed, on the same
    slot. *)
Theorem Build_repeated_key_spins fuel ks (i j : nat) k :
  ks !! i = Some k → ks !! j = Some k → i ≠ j → Build fuel ks = Spin.
Proof.
  intros Hi Hj Hij. pose proof (Build_no_panic fuel ks) as Hnp.
  destruct (Build fuel ks) as [t| |] eqn:Hb; [|done|done].
  apply Build_NoDup in Hb. exfalso. apply Hij.
  by eapply NoDup_lookup.
Qed.

(** X7. [Build] returns only on keys that are pairwise distinct, and on at
    most [2^32] of them: a slot is a [uint32], and no two keys share
    one. *)
Theorem Build_returns_on_distinct_keys fuel ks t :
  Build fuel ks = Done t → NoDup (keys t) ∧ len (keys t) ≤ 2 ^ 32.
Proof.
  intros Hb. destruct (Build_facts _ _ _ Hb) as (-> & _).
  split; [by eapply Build_NoDup | by eapply Build_key_count].
Qed.
End no_panic.

(** ** The entries of [level0], and what [Lookup] decides *)

Section table.
Context `{Murmur} `{Sorter}.

Lemma displace_level0_range fuel ks mask bs occ l0 l1 l0' l1' :
  displace fuel ks mask bs occ l0 l1 = Done (l0', l1') →
  Forall (λ v, 0 ≤ v < 2 ^ 32) l0 → Forall (λ v, 0 ≤ v < 2 ^ 32) l0'.
Proof.
  revert occ l0 l1. induction bs as [|b bs IH]; intros occ l0 l1 E Hl0;
    simpl in E; [by simplify_eq|].
  apply bind_Done in E as ([[seed occ1] l1_1] & _ & E).
  apply bind_Done in E as (l0_1 & [_ ->]%idx_set_Done & E).
  eapply IH; [exact E|]. apply Forall_insert; [done|apply uint32_range].
Qed.

(** X8. Every entry of [level0] is a seed in the [uint32] range, and the
    entry of a bucket that no key falls in is the initial 0. *)
Theorem level0_entries fuel ks t (m : nat) v :
  Build fuel ks = Done t → level0 t !! m = Some v →
  0 ≤ v < 2 ^ 32 ∧
  ((∀ k, k ∈ ks → bucketOf (level0Mask t) k ≠ Z.of_nat m) → v = 0).
Proof.
  intros (a & b & sb & l0' & l1' & _ & _ & Ha & _ & Hpart & Hdis & ->)%Build_inv
    Hv. simpl in *. split.
  - apply displace_level0_range in Hdis.
    + rewrite Forall_forall in Hdis. apply Hdis. by eapply list_elem_of_lookup_2.
    + apply Forall_forall. intros x [-> _]%elem_of_replicate. lia.
  - intros Hempty.
    apply displace_spec in Hdis as (_ & _ & Hkeep & _); [|apply sortedBuckets_NoDup].
    rewrite Hkeep in Hv.
    + by apply lookup_replicate in Hv as [-> _].
    + intros (bk & Hn & Hbk)%list_elem_of_fmap.
      destruct (sortedBuckets_in_range _ _ _ _ Hpart Ha Hbk) as [_ Hvs].
      pose proof Hbk as (m' & _ & _ & Hne)%sortedBuckets_elem.
      destruct (vals bk) as [|i vs] eqn:Hvals; [done|].
      destruct (Hvs i) as (_ & k & Hk & Hb); [by left|].
      apply (Hempty k); [|lia].
      apply idx_get_Done in Hk as [_ Hk]. by eapply list_elem_of_lookup_2.
Qed.

(** X9. On a table that [Build] returned, [Lookup] decides membership.  It
    reports a key found exactly at the position the key has in the input;
    it reports not found exactly when the key is none of a non-empty input;
    it panics exactly when the input was empty; it never spins. *)
Theorem Lookup_decides_membership fuel ks t z :
  Build fuel ks = Done t →
  (∀ c, Lookup t z = Done (c, true) ↔ 0 ≤ c ∧ ks !! Z.to_nat c = Some z) ∧
  ((∃ c, Lookup t z = Done (c, false)) ↔ ks ≠ [] ∧ z ∉ ks) ∧
  (Lookup t z = Panic ↔ ks = []) ∧
  Lookup t z ≠ Spin.
Proof.
  intros Hb.
  assert (ks = [] → Lookup t z = Panic) as Hnil.
  { intros ->. rewrite Build_nil in Hb. injection Hb as <-. apply Lookup_nil_table. }
  assert (ks ≠ [] → ∃ c k, Lookup t z = Done (c, String.eqb z k) ∧ k ∈ ks) as Hcons.
  { intros Hne. destruct (Lookup_returns _ _ _ z Hb Hne) as (c & k & Hl & Hk).
    exists c, k. split; [done|].
    destruct (Build_facts _ _ _ Hb) as (Hkeys & _). rewrite Hkeys in Hk.
    apply idx_get_Done in Hk as [_ Hk]. by eapply list_elem_of_lookup_2. }
  split_and!.
  - intros c. split.
    + intros E. unfold Lookup in E.
      apply bind_Done in E as (seed & _ & E). apply bind_Done in E as (c' & _ & E).
      apply bind_Done in E as (k & Hk & E).
      destruct (Build_facts _ _ _ Hb) as (Hkeys & _). rewrite Hkeys in Hk.
      apply idx_get_Done in Hk as [Hc Hk].
      injection E as -> ->%String.eqb_eq. done.
    + intros [Hc Hk].
      destruct (Lookup_member _ _ _ _ _ Hb Hk) as (_ & _ & _ & Hl & _).
      by rewrite Z2Nat.id in Hl.
  - split.
    + intros [c E]. split.
      * intros Hks. rewrite (Hnil Hks) in E. done.
      * intros (i & Hi)%list_elem_of_lookup_1.
        destruct (Lookup_member _ _ _ _ _ Hb Hi) as (_ & _ & _ & Hl & _).
        congruence.
    + intros [Hne Hz]. destruct (Hcons Hne) as (c & k & Hl & Hk).
      destruct (String.eqb z k) eqn:E; [|by exists c].
      apply String.eqb_eq in E as ->. done.
  - split; [|done]. intros E. destruct ks as [|k0 ks']; [done|].
    destruct Hcons as (c & k & Hl & _); [done|]. congruence.
  - intros E. destruct ks as [|k0 ks'].
    + rewrite Hnil in E; done.
    + destruct Hcons as (c & k & Hl & _); [done|]. congruence.
Qed.

(** ** The buckets split the key positions *)

Lemma partition_ascending mask i ks sb pool sb' pool' :
  partition mask i ks sb pool = Done (sb', pool') →
  Forall (λ vs, StronglySorted Z.lt vs ∧ ∀ v, v ∈ vs → v < i) sb →
  Forall (λ vs, StronglySorted Z.lt vs) sb'.
Proof.
  revert i sb pool. induction ks as [|s ks IH]; intros i sb pool E Hsb;
    simpl in E.
  - simplify_eq. eapply Forall_impl; [exact Hsb|]. by intros vs [? _].
  - apply bind_Done in E as (vs0 & [_ Hget]%idx_get_Done & E).
    apply bind_Done in E as (sb1 & [_ ->]%idx_set_Done & E).
    eapply IH; [exact E|].
    pose proof (proj1 (Forall_forall _ _) Hsb) as Hall.
    apply Forall_insert.
    + eapply Forall_impl; [exact Hsb|]. intros vs [Hs Hlt]. split; [done|].
      intros v Hv. specialize (Hlt v Hv). lia.
    + destruct (Hall vs0) as [Hs Hlt]; [by eapply list_elem_of_lookup_2|]. split.
      * apply StronglySorted_app_2; [|done|repeat constructor].
        intros x1 x2 Hx1 ->%list_elem_of_singleton. by apply Hlt.
      * intros v [Hv| ->%list_elem_of_singleton]%elem_of_app; [|lia].
        specialize (Hlt v Hv). lia.
Qed.

(** X10. The buckets that [Build] hands to the solver split the key
    positions by their level-0 hash: no two buckets have the same index, no
    bucket is empty, each lists its positions in increasing order, a
    position is in a bucket exactly when the key there hashes to the
    bucket's index, and every position is in one. *)
Theorem buckets_split_positions fuel ks t :
  Build fuel ks = Done t →
  ∃ bs, bucketOrder ks = Done bs ∧
    NoDup (n <$> bs) ∧
    (∀ b, b ∈ bs →
       vals b ≠ [] ∧ StronglySorted Z.lt (vals b) ∧
       0 ≤ n b < len (level0 t) ∧
       ∀ i, i ∈ vals b ↔
         ∃ k, idx_get ks i = Done k ∧ bucketOf (level0Mask t) k = n b) ∧
    (∀ (i : nat) k, ks !! i = Some k →
       ∃ b, b ∈ bs ∧ n b = bucketOf (level0Mask t) k ∧ Z.of_nat i ∈ vals b).
Proof.
  intros Hb. destruct (Build_bucketOrder _ _ _ Hb) as (sb' & Hord' & _).
  destruct (Build_lengths _ _ _ Hb) as [Hn0 _]. revert Hb.
  intros (a & b & sb & l0' & l1' & Ha & _ & Ha1 & _ & Hpart & _ & ->)%Build_inv.
  simpl in *. rewrite Ha in Hn0. injection Hn0 as ->.
  assert (bucketOrder ks = Done (sortedBuckets sb)) as Hord.
  { unfold bucketOrder. rewrite Ha. simpl. rewrite (make_nonneg 0 (len l0')) by lia.
    simpl. rewrite len_replicate by lia.
    rewrite (make_nonneg [] (len l0')) by lia. simpl. by rewrite Hpart. }
  exists (sortedBuckets sb). split_and!; [done|apply sortedBuckets_NoDup| |].
  - intros bk Hbk.
    destruct (sortedBuckets_in_range _ _ _ _ Hpart Ha1 Hbk) as [Hn Hvs].
    pose proof Hbk as (m & Hm & Hnm & Hne)%sortedBuckets_elem.
    split; [done|]. split; [|split; [done|]].
    + assert (Forall (λ vs, StronglySorted Z.lt vs) sb) as Hasc.
      { eapply partition_ascending; [exact Hpart|].
        apply Forall_forall. intros vs [-> _]%elem_of_replicate.
        split; [constructor|]. by intros v ?%elem_of_nil. }
      rewrite Forall_forall in Hasc. apply Hasc. by eapply list_elem_of_lookup_2.
    + intros i. split; [intros Hi; by apply Hvs|].
      intros (k & [Hi Hk]%idx_get_Done & Hbk').
      pose proof (partition_spec _ _ _ _ _ _ _ Hpart) as (_ & Hl & _ & Hmem).
      rewrite length_replicate in Hl.
      apply (Hmem m [] (vals bk)); [|done|].
      * apply lookup_replicate_2. apply lookup_lt_Some in Hm. lia.
      * right. exists (Z.to_nat i), k. split_and!; [done|lia|lia].
  - intros i k Hk. destruct (partition_bucket _ _ _ _ _ Hpart Hk) as (vs & Hbk & Hi).
    by exists (mkBucket (bucketOf (len l0' - 1) k) vs).
Qed.
End table.

(** ** The sizes of the buckets, whatever [sort.Sort] does *)

Lemma sorted_lookup_StronglySorted {A} (R : relation A) (l : list A) :
  (∀ (i j : nat) a b, (i < j)%nat → l !! i = Some a → l !! j = Some b → R a b) →
  StronglySorted R l.
Proof.
  induction l as [|x l IH]; intros Hl; [constructor|]. constructor.
  - apply IH. intros i j a b Hij Ha Hb. apply (Hl (S i) (S j)); [lia|done..].
  - apply Forall_forall. intros y (j & Hj)%list_elem_of_lookup_1.
    apply (Hl O (S j)); [lia|done..].
Qed.

(** X11. Two sorts within the contract of [sort.Sort] may take buckets of
    equal size in different orders, but nothing else differs: the buckets
    they hand to the solver are the same buckets, and position by position
    they have the same sizes. *)
Theorem bucket_sizes_fixed (M : Murmur) (S1 S2 : Sorter) ks bs1 bs2 :
  @bucketOrder M S1 ks = Done bs1 → @bucketOrder M S2 ks = Done bs2 →
  bs1 ≡ₚ bs2 ∧ (λ b, len (vals b)) <$> bs1 = (λ b, len (vals b)) <$> bs2.
Proof.
  unfold bucketOrder. intros E1 E2.
  apply bind_Done in E1 as (a & Ha & E1). rewrite Ha in E2. simpl in E2.
  apply bind_Done in E1 as (lv0 & Hlv0 & E1). rewrite Hlv0 in E2. simpl in E2.
  apply bind_Done in E1 as (sb0 & Hsb0 & E1). rewrite Hsb0 in E2. simpl in E2.
  apply bind_Done in E1 as ([sb pool] & Hpart & E1). rewrite Hpart in E2.
  simpl in E1, E2. injection E1 as <-. injection E2 as <-.
  unfold sortedBuckets.
  assert (@sort_Sort S1 (collect 0 sb []) ≡ₚ @sort_Sort S2 (collect 0 sb []))
    as Hperm by (by rewrite !sort_Sort_perm).
  split; [done|].
  assert (∀ S : Sorter, StronglySorted (λ x y : Z, y ≤ x)
            ((λ b, len (vals b)) <$> @sort_Sort S (collect 0 sb []))) as Hsorted.
  { intros S. apply (StronglySorted_fmap _ (λ a b, Less b a = false)).
    - intros x y Hxy. unfold Less in Hxy. lia.
    - apply sorted_lookup_StronglySorted. intros i j x y. apply sort_Sort_sorted. }
  apply (StronglySorted_unique_strong (λ x y : Z, y ≤ x)); [|apply Hsorted..|].
  - intros x y _ _ Hxy Hyx. lia.
  - by apply fmap_Permutation.
Qed.

(** ** The seed of a bucket is the first that fits *)

Section first_fit.
Context `{Murmur} `{Sorter}.

(** A trial of [seed] on the keys [vs] meets a taken slot: some key of [vs]
    hashes to a slot that is [taken], or to the slot of a key before it in
    [vs]. *)
Definition collides (ks : list string) (mask : Z) (taken : Z → Prop)
    (seed : Z) (vs : list Z) : Prop :=
  ∃ (p : nat) i ki, vs !! p = Some i ∧ idx_get ks i = Done ki ∧
    (taken (slotOf mask seed ki) ∨
     ∃ (q : nat) j kj, (q < p)%nat ∧ vs !! q = Some j ∧
       idx_get ks j = Done kj ∧
       slotOf mask seed kj = slotOf mask seed ki).

(** The slot [z] is marked in [occ]. *)
Definition marked (occ : list bool) (z : Z) : Prop :=
  occ !! Z.to_nat z = Some true.

Lemma slotOf_nonneg mask seed k : 0 ≤ slotOf mask seed k.
Proof. apply Z.land_nonneg. left. apply murmurHash_range. Qed.

Lemma collides_ext ks mask taken taken' seed vs :
  (∀ z, 0 ≤ z → taken z ↔ taken' z) →
  collides ks mask taken seed vs ↔ collides ks mask taken' seed vs.
Proof.
  intros Hext. unfold collides.
  split; intros (p & i & ki & Hp & Hki & [Ht|Hq]); exists p, i, ki;
    (split_and!; [done|done|]); [left|by right|left|by right];
    by apply (Hext _ (slotOf_nonneg mask seed ki)).
Qed.

Lemma collides_nil ks mask taken seed : ¬ collides ks mask taken seed [].
Proof. intros (p & i & ki & Hp & _). by rewrite lookup_nil in Hp. Qed.

Lemma collides_cons ks mask taken seed i ki vs :
  idx_get ks i = Done ki →
  collides ks mask taken seed (i :: vs) ↔
  taken (slotOf mask seed ki) ∨
  collides ks mask (λ z, taken z ∨ slotOf mask seed ki = z) seed vs.
Proof.
  intros Hki. split.
  - intros ([|p] & i' & ki' & Hp & Hki' & Hc); simpl in Hp.
    + simplify_eq. rewrite Hki in Hki'. simplify_eq.
      destruct Hc as [Ht|(q & j & kj & Hq & _)]; [by left|lia].
    + right. exists p, i', ki'. split_and!; [done|done|].
      destruct Hc as [Ht|([|q] & j & kj & Hq & Hj & Hkj & Heq)];
        [|simpl in Hj..].
      * by left; left.
      * simplify_eq. rewrite Hki in Hkj. simplify_eq. by left; right.
      * right. exists q, j, kj. split_and!; [lia|done..].
  - intros [Ht|(p & i' & ki' & Hp & Hki' & Hc)].
    + exists O, i, ki. split_and!; [done|done|by left].
    + exists (S p), i', ki'. split_and!; [done|done|].
      destruct Hc as [[Ht|Heq]|(q & j & kj & Hq & Hj & Hkj & Heq)].
      * by left.
      * right. exists O, i, ki. split_and!; [lia|done..].
      * right. exists (S q), j, kj. split_and!; [lia|done..].
Qed.

Lemma marked_insert (occ : list bool) n z :
  0 ≤ n < len occ → 0 ≤ z →
  marked (<[Z.to_nat n := true]> occ) z ↔ marked occ z ∨ n = z.
Proof.
  intros Hn Hz. unfold marked.
  destruct (decide (n = z)) as [->|Hne].
  - rewrite list_lookup_insert_eq by (unfold len in Hn; lia). by split; [right|].
  - rewrite list_lookup_insert_ne by lia. split; [by left|]. by intros [?|?].
Qed.

(** A trial gives up exactly when it meets a taken slot. *)
Lemma place_flag ks mask seed vs occ tmp l1 ok occ' l1' :
  place ks mask seed vs occ tmp l1 = Done (ok, occ', l1') →
  ok = false ↔ collides ks mask (marked occ) seed vs.
Proof.
  revert occ tmp l1. induction vs as [|i vs IH]; intros occ tmp l1 E; simpl in E.
  - simplify_eq. split; [done|]. by intros ?%collides_nil.
  - apply bind_Done in E as (k & Hk & E). fold (slotOf mask seed k) in E.
    apply bind_Done in E as (o & Ho & E). rewrite (collides_cons _ _ _ _ _ _ _ Hk).
    pose proof Ho as [_ Ho']%idx_get_Done. destruct o.
    + apply bind_Done in E as (occ1 & _ & E). simplify_eq. split; [|done].
      intros _. by left.
    + apply bind_Done in E as (occ1 & [Hr ->]%idx_set_Done & E).
      apply bind_Done in E as (l1_1 & _ & E).
      rewrite (IH _ _ _ E). split.
      * intros Hc. right. eapply collides_ext; [|exact Hc].
        intros z Hz. simpl. by rewrite marked_insert.
      * intros [Ht|Hc]; [unfold marked in Ht; congruence|].
        eapply collides_ext; [|exact Hc].
        intros z Hz. simpl. by rewrite marked_insert.
Qed.

(** A trial that succeeds marks the slots of its keys, and no other. *)
Lemma place_ok_marks ks mask seed vs occ tmp l1 occ' l1' z :
  place ks mask seed vs occ tmp l1 = Done (true, occ', l1') → 0 ≤ z →
  marked occ' z ↔
  marked occ z ∨ ∃ i ki, i ∈ vs ∧ idx_get ks i = Done ki ∧
                         slotOf mask seed ki = z.
Proof.
  intros E Hz. revert occ tmp l1 E.
  induction vs as [|i vs IH]; intros occ tmp l1 E; simpl in E.
  - simplify_eq. split; [by left|]. intros [?|(i & ki & ?%elem_of_nil & _)]; done.
  - apply bind_Done in E as (k & Hk & E). fold (slotOf mask seed k) in E.
    apply bind_Done in E as (o & Ho & E).
    destruct o; [by apply bind_Done in E as (occ1 & _ & E)|].
    apply bind_Done in E as (occ1 & [Hr ->]%idx_set_Done & E).
    apply bind_Done in E as (l1_1 & _ & E).
    rewrite (IH _ _ _ E), marked_insert by done. split.
    + intros [[Hm|Heq]|(j & kj & Hj & Hkj & Hs)].
      * by left.
      * right. exists i, k. split_and!; [by left|done|done].
      * right. exists j, kj. split_and!; [by right|done|done].
    + intros [Hm|(j & kj & [->|Hj]%elem_of_cons & Hkj & Hs)].
      * by left; left.
      * rewrite Hk in Hkj. simplify_eq. by left; right.
      * right. exists j, kj. by split_and!.
Qed.

Lemma uint32_add_l a b : uint32 (uint32 a + b) = uint32 (a + b).
Proof. unfold uint32. apply Zplus_mod_idemp_l. Qed.

(** The seed search returns after [m] failed trials, with the seed
    [seed0 + m]: the first of the seeds it tries that meets no taken slot.
    It has then tried fewer than [2^32] seeds. *)
Lemma trySeed_first_fit fuel ks mask seed0 vs occ l1 seed occ' l1' :
  trySeed fuel ks mask seed0 vs occ l1 = Done (seed, occ', l1') →
  0 ≤ seed0 < 2 ^ 32 →
  ∃ m : nat,
    (m < fuel)%nat ∧ Z.of_nat m < 2 ^ 32 ∧
    seed = uint32 (seed0 + Z.of_nat m) ∧
    ¬ collides ks mask (marked occ) seed vs ∧
    (∀ j : nat, (j < m)%nat →
       collides ks mask (marked occ) (uint32 (seed0 + Z.of_nat j)) vs) ∧
    trySeed (S m) ks mask seed0 vs occ l1 = Done (seed, occ', l1').
Proof.
  intros E Hs.
  enough (∃ m : nat,
    (m < fuel)%nat ∧ seed = uint32 (seed0 + Z.of_nat m) ∧
    ¬ collides ks mask (marked occ) seed vs ∧
    (∀ j : nat, (j < m)%nat →
       collides ks mask (marked occ) (uint32 (seed0 + Z.of_nat j)) vs) ∧
    trySeed (S m) ks mask seed0 vs occ l1 = Done (seed, occ', l1'))
    as (m & Hm & -> & Hfit & Hbelow & Hrun).
  { exists m. split_and!; [done| |done..].
    destruct (Z.lt_ge_cases (Z.of_nat m) (2 ^ 32)) as [|Hbig]; [done|].
    exfalso. apply Hfit.
    replace (uint32 (seed0 + Z.of_nat m))
      with (uint32 (seed0 + Z.of_nat (m - Z.to_nat (2 ^ 32)))).
    - apply Hbelow. lia.
    - unfold uint32.
      replace (seed0 + Z.of_nat m)
        with (seed0 + Z.of_nat (m - Z.to_nat (2 ^ 32)) + 1 * 2 ^ 32) by lia.
      by rewrite Z_mod_plus_full. }
  revert seed0 occ l1 E Hs. induction fuel as [|fuel IH];
    intros seed0 occ l1 E Hs; simpl in E; [done|].
  apply bind_Done in E as ([[ok occ1] l1_1] & Hplace & E).
  pose proof (place_flag _ _ _ _ _ _ _ _ _ _ Hplace) as Hflag. destruct ok.
  - simplify_eq. exists O. rewrite Z.add_0_r, uint32_small by done.
    split_and!; [lia|done| | |].
    + intros Hc. by apply Hflag in Hc.
    + intros j Hj. lia.
    + simpl. by rewrite Hplace.
  - assert (occ1 = occ) as ->.
    { eapply place_fail; [exact Hplace|].
      split_and!; [done| |done]. by intros z ?%elem_of_nil. }
    apply IH in E as (m & Hm & -> & Hfit & Hbelow & Hrun); [|apply uint32_range].
    exists (S m).
    assert (∀ j : nat, uint32 (uint32 (seed0 + 1) + Z.of_nat j)
                       = uint32 (seed0 + Z.of_nat (S j))) as Hstep.
    { intros j. rewrite uint32_add_l. f_equal. lia. }
    rewrite Hstep in *. split_and!; [lia|done|done| |].
    + intros [|j] Hj.
      * rewrite Z.add_0_r, uint32_small by done. by apply Hflag.
      * rewrite <- Hstep. apply Hbelow. lia.
    + change (trySeed (S (S m)) ks mask seed0 vs occ l1)
        with ('(ok, occ', level1') ← place ks mask seed0 vs occ [] l1;
              if ok : bool then Done (seed0, occ', level1')
              else trySeed (S m) ks mask (uint32 (seed0 + 1)) vs occ' level1').
      rewrite Hplace. simpl. exact Hrun.
Qed.
Lemma trySeed_marks fuel ks mask seed0 vs occ l1 seed occ' l1' z :
  trySeed fuel ks mask seed0 vs occ l1 = Done (seed, occ', l1') → 0 ≤ z →
  marked occ' z ↔
  marked occ z ∨ ∃ i ki, i ∈ vs ∧ idx_get ks i = Done ki ∧
                         slotOf mask seed ki = z.
Proof.
  intros E Hz. revert seed0 occ l1 E. induction fuel as [|fuel IH];
    intros seed0 occ l1 E; simpl in E; [done|].
  apply bind_Done in E as ([[ok occ1] l1_1] & Hplace & E). destruct ok.
  - simplify_eq. by eapply place_ok_marks.
  - assert (occ1 = occ) as ->.
    { eapply place_fail; [exact Hplace|].
      split_and!; [done| |done]. by intros z' ?%elem_of_nil. }
    by eapply IH.
Qed.

(** The slot [z] belongs to a key of one of the buckets [pre], under the
    seed [l0] holds for that bucket. *)
Definition takenBy (ks : list string) (mask : Z) (l0 : list Z)
    (pre : list indexBucket) (z : Z) : Prop :=
  ∃ b j kj sj, b ∈ pre ∧ j ∈ vals b ∧ idx_get ks j = Done kj ∧
    idx_get l0 (n b) = Done sj ∧ slotOf mask sj kj = z.

Lemma displace_first_fit fuel ks mask bs occ l0 l1 l0' l1' pre b post seed :
  displace fuel ks mask bs occ l0 l1 = Done (l0', l1') →
  NoDup (n <$> bs) → bs = pre ++ b :: post →
  idx_get l0' (n b) = Done seed →
  ¬ collides ks mask (λ z, marked occ z ∨ takenBy ks mask l0' pre z) seed (vals b) ∧
  ∀ s, 0 ≤ s < seed →
    collides ks mask (λ z, marked occ z ∨ takenBy ks mask l0' pre z) s (vals b).
Proof.
  revert occ l0 l1 pre. induction bs as [|b0 bs IH];
    intros occ l0 l1 pre E Hnd Hbs Hseed; simpl in E.
  { by destruct pre. }
  apply bind_Done in E as ([[seed0 occ1] l1_1] & Htry & E).
  apply bind_Done in E as (l0_1 & Hset & E).
  apply idx_set_Done in Hset as [Hr ->].
  rewrite fmap_cons in Hnd. apply NoDup_cons in Hnd as [Hfresh Hnd].
  pose proof (displace_spec _ _ _ _ _ _ _ _ _ E Hnd) as (_ & _ & Hl0keep & _).
  destruct (trySeed_first_fit _ _ _ _ _ _ _ _ _ _ Htry)
    as (m & _ & Hm & Hsm & Hfit & Hbelow & _); [lia|].
  rewrite Z.add_0_l, uint32_small in Hsm by lia. subst seed0.
  assert (idx_get l0' (n b0) = Done (Z.of_nat m)) as Hseed0.
  { apply idx_get_Done. split; [lia|].
    rewrite Hl0keep by (by rewrite Z2Nat.id by lia).
    rewrite list_lookup_insert_eq by (unfold len in Hr; lia).
    apply f_equal, uint32_small. lia. }
  destruct pre as [|b0' pre]; simpl in Hbs;
    [injection Hbs as -> -> | injection Hbs as <- ->].
  - rewrite Hseed0 in Hseed. injection Hseed as <-.
    assert (∀ z, 0 ≤ z →
              marked occ z ∨ takenBy ks mask l0' [] z ↔ marked occ z) as Hext.
    { intros z _. split; [|by left].
      intros [?|(b' & j & kj & sj & ?%elem_of_nil & _)]; done. }
    split.
    + intros Hc. apply Hfit. exact (proj1 (collides_ext _ _ _ _ _ _ Hext) Hc).
    + intros s Hs. apply (proj2 (collides_ext _ _ _ _ _ _ Hext)).
      specialize (Hbelow (Z.to_nat s)).
      rewrite Z.add_0_l, Z2Nat.id, uint32_small in Hbelow by lia.
      apply Hbelow. lia.
  - assert (∀ z, 0 ≤ z →
              marked occ z ∨ takenBy ks mask l0' (b0 :: pre) z ↔
              marked occ1 z ∨ takenBy ks mask l0' pre z) as Hext.
    { intros z Hz. rewrite (trySeed_marks _ _ _ _ _ _ _ _ _ _ z Htry Hz).
      split.
      - intros [Hm0|(b' & j & kj & sj & [->|Hb']%elem_of_cons & Hj & Hkj & Hsj & Hs)].
        + by left; left.
        + rewrite Hseed0 in Hsj. injection Hsj as <-.
          left; right. by exists j, kj.
        + right. by exists b', j, kj, sj.
      - intros [[Hm0|(j & kj & Hj & Hkj & Hs)]|(b' & j & kj & sj & Hb' & Hrest)].
        + by left.
        + right. exists b0, j, kj, (Z.of_nat m). split_and!; [by left|done..].
        + right. exists b', j, kj, sj. split; [by right|done]. }
    destruct (IH _ _ _ pre E Hnd eq_refl Hseed) as [Hfit' Hbelow'].
    split.
    + intros Hc. apply Hfit'. exact (proj1 (collides_ext _ _ _ _ _ _ Hext) Hc).
    + intros s Hs. apply (proj2 (collides_ext _ _ _ _ _ _ Hext)).
      by apply Hbelow'.
Qed.

(** X12. The seed that [level0] holds for a bucket is the first that fits:
    under it no key of the bucket falls on the slot of a key of a bucket
    taken before it, or of another key of its own bucket, and under every
    smaller seed some key does. *)
Theorem level0_first_fit fuel ks t :
  Build fuel ks = Done t →
  ∃ bs, bucketOrder ks = Done bs ∧
    ∀ pre b post, bs = pre ++ b :: post →
      ∃ seed, idx_get (level0 t) (n b) = Done seed ∧
        ¬ collides ks (level1Mask t)
            (takenBy ks (level1Mask t) (level0 t) pre) seed (vals b) ∧
        ∀ s, 0 ≤ s < seed →
          collides ks (level1Mask t)
            (takenBy ks (level1Mask t) (level0 t) pre) s (vals b).
Proof.
  intros Hb. destruct (Build_bucketOrder _ _ _ Hb) as (sb0 & Hord & Hdis).
  exists (sortedBuckets sb0). split; [done|]. intros pre b post Hbs.
  assert (b ∈ sortedBuckets sb0) as Hin.
  { rewrite Hbs. apply elem_of_app. right. by left. }
  destruct (idx_get_in_range (level0 t) (n b)) as [seed Hseed].
  { revert Hb.
    intros (a & b' & sb & l0' & l1' & Ha & _ & Ha1 & _ & Hpart & Hdis' & ->)%Build_inv.
    simpl in *.
    apply displace_spec in Hdis' as (Hl0 & _); [|apply sortedBuckets_NoDup].
    rewrite length_replicate in Hl0.
    assert (sortedBuckets sb0 = sortedBuckets sb) as Heq.
    { unfold bucketOrder in Hord. rewrite Ha in Hord. simpl in Hord.
      rewrite (make_nonneg 0 a) in Hord by lia. simpl in Hord.
      rewrite len_replicate in Hord by lia.
      rewrite (make_nonneg [] a) in Hord by lia. simpl in Hord.
      rewrite Hpart in Hord. simpl in Hord. by injection Hord. }
    rewrite Heq in Hin.
    destruct (sortedBuckets_in_range _ _ _ _ Hpart Ha1 Hin) as [Hn _].
    unfold len. lia. }
  exists seed. split; [done|].
  destruct (displace_first_fit _ _ _ _ _ _ _ _ _ pre b post seed Hdis
              (sortedBuckets_NoDup _) Hbs Hseed) as [Hfit Hbelow].
  assert (∀ z, 0 ≤ z →
            marked (replicate (Z.to_nat (len (level1 t))) false) z
            ∨ takenBy ks (level1Mask t) (level0 t) pre z ↔
            takenBy ks (level1Mask t) (level0 t) pre z) as Hext.
  { intros z _. split; [|by right]. intros [Hm|?]; [|done].
    unfold marked in Hm. by apply lookup_replicate in Hm as [? _]. }
  split.
  - intros Hc. apply Hfit. exact (proj2 (collides_ext _ _ _ _ _ _ Hext) Hc).
  - intros s Hs. exact (proj1 (collides_ext _ _ _ _ _ _ Hext) (Hbelow s Hs)).
Qed.

(** ** The seed search is over after [2^32] trials *)

Lemma trySeed_within fuel fuel' ks mask seed0 vs occ l1 r :
  trySeed fuel ks mask seed0 vs occ l1 = Done r → 0 ≤ seed0 < 2 ^ 32 →
  2 ^ 32 ≤ Z.of_nat fuel' →
  trySeed fuel' ks mask seed0 vs occ l1 = Done r.
Proof.
  destruct r as [[seed occ'] l1']. intros E Hs Hf.
  destruct (trySeed_first_fit _ _ _ _ _ _ _ _ _ _ E Hs)
    as (m & _ & Hm & _ & _ & _ & Hrun).
  eapply trySeed_mono; [exact Hrun|]. lia.
Qed.

Lemma displace_within fuel fuel' ks mask bs occ l0 l1 r :
  displace fuel ks mask bs occ l0 l1 = Done r → 2 ^ 32 ≤ Z.of_nat fuel' →
  displace fuel' ks mask bs occ l0 l1 = Done r.
Proof.
  intros E Hf. revert occ l0 l1 E. induction bs as [|b bs IH]; intros occ l0 l1 E;
    simpl in *; [done|].
  apply bind_Done in E as ([[seed occ1] l1_1] & Htry & E).
  rewrite (trySeed_within _ fuel' _ _ _ _ _ _ _ Htry) by (lia || done). simpl.
  apply bind_Done in E as (l0_1 & -> & E). simpl. by apply IH.
Qed.

Lemma Build_within fuel fuel' ks t :
  Build fuel ks = Done t → 2 ^ 32 ≤ Z.of_nat fuel' → Build fuel' ks = Done t.
Proof.
  unfold Build. intros E Hf.
  apply bind_Done in E as (a & -> & E). simpl.
  apply bind_Done in E as (lv0 & -> & E). simpl.
  apply bind_Done in E as (b & -> & E). simpl.
  apply bind_Done in E as (lv1 & -> & E). simpl.
  apply bind_Done in E as (sb0 & -> & E). simpl.
  apply bind_Done in E as ([sb pool] & -> & E). simpl.
  apply bind_Done in E as (occ & -> & E). simpl.
  apply bind_Done in E as ([l0' l1'] & Hdis & E).
  by rewrite (displace_within _ fuel' _ _ _ _ _ _ _ Hdis Hf).
Qed.

(** X13. A seed is a [uint32]: after [2^32] trials the search for a bucket
    has tried every seed against the same occupancy and starts over.  So
    when [Build] returns at all, it returns the same table within [2^32]
    trials for each bucket. *)
Theorem Build_within_all_seeds fuel ks t :
  Build fuel ks = Done t → Build (Z.to_nat (2 ^ 32)) ks = Done t.
Proof. intros Hb. eapply Build_within; [exact Hb|]. lia. Qed.
End first_fit.

(** ** The two instances of [Build] and the caller's arrays *)

Section instances.
Context `{Murmur} `{Sorter}.

Lemma poolOf_bytes keys pool h : poolOf TBytes keys pool h = (pool ++ keys, h).
Proof.
  revert pool. induction keys as [|a keys IH]; intros pool; simpl.
  - by rewrite app_nil_r.
  - rewrite IH. by rewrite <- app_assoc.
Qed.

Lemma mapRes_lookup {A B} (f : A → res B) l bs (i : nat) a :
  mapRes f l = Done bs → l !! i = Some a → ∃ b, f a = Done b ∧ bs !! i = Some b.
Proof.
  intros Hm%mapRes_Done Ha.
  destruct (Forall2_lookup_l _ _ _ _ _ Hm Ha) as (b & Hb & Hf). by exists b.
Qed.

(** X14. At [[]byte], [Build] allocates nothing: the table's keys are the
    caller's slices themselves.  Whatever the caller later writes into the
    array of its [i]-th key is what the table's [i]-th key then holds. *)
Theorem BuildRef_bytes_shared fuel keys h rt h' :
  BuildRef fuel TBytes keys h = Done (rt, h') →
  keyRefs rt = keys ∧ h' = h ∧
  ∀ (i : nat) (a : addr) s, keys !! i = Some a →
    ∃ cs, contents (<[a := s]> h) rt = Done cs ∧ cs !! i = Some s.
Proof.
  unfold BuildRef. intros (ks & Hks & (t & Ht & E)%bind_Done)%bind_Done.
  rewrite poolOf_bytes in E. simpl in E. injection E as <- <-. simpl.
  split_and!; [done..|]. intros i a s Ha. unfold contents. simpl.
  assert (∀ a', a' ∈ keys → (a' < length h)%nat) as Hvalid.
  { intros a' (j & Hj)%list_elem_of_lookup_1.
    destruct (mapRes_lookup _ _ _ _ _ Hks Hj) as (b & Hb & _).
    simpl in Hb. unfold deref in Hb.
    destruct (h !! a') eqn:E; [|done]. by eapply lookup_lt_Some. }
  assert (∃ cs, mapRes (deref (<[a:=s]> h)) keys = Done cs) as [cs Hcs].
  { clear Ha Hks. induction keys as [|a' keys IH]; simpl; [by eexists|].
    destruct (lookup_lt_is_Some_2 (<[a:=s]> h) a') as [x Hx].
    { rewrite length_insert. apply Hvalid. by left. }
    assert (deref (<[a:=s]> h) a' = Done x) as ->
      by (unfold deref; by rewrite Hx).
    simpl.
    destruct IH as [cs' ->]; [intros ? ?; apply Hvalid; by right|].
    simpl. by eexists. }
  exists cs. split; [done|].
  destruct (mapRes_lookup _ _ _ _ _ Hcs Ha) as (b & Hb & ->).
  unfold deref in Hb. rewrite list_lookup_insert_eq in Hb; [by simplify_eq|].
  apply Hvalid. by eapply list_elem_of_lookup_2.
Qed.

(** X15. At [string], [Build] leaves the caller's arrays as they are and
    stores each key in a new array past them; no write of the caller to an
    array it held before [Build] changes what the table's keys hold. *)
Theorem BuildRef_string_copies fuel keys h rt h' :
  BuildRef fuel TString keys h = Done (rt, h') →
  h' = h ++ keys ∧
  keyRefs rt = seq (length h) (length keys) ∧
  contents h' rt = Done keys ∧
  ∀ (a : addr) s, (a < length h)%nat →
    contents (<[a := s]> h') rt = Done keys.
Proof.
  intros Hb. pose proof (BuildRef_string_owned _ _ _ _ _ Hb) as [Hc Hw].
  revert Hb. unfold BuildRef.
  intros (ks & Hks & (t & Ht & E)%bind_Done)%bind_Done.
  destruct (poolOf TString keys [] h) as [pool h1] eqn:Hpool.
  apply poolOf_string in Hpool as [-> ->]. by simplify_eq.
Qed.

(** X16. As long as the heap is the one [Build] left, the table of
    references is the table of bytes: its index arrays are those [Build]
    computes from the bytes of the keys, its keys hold those bytes, and
    [Lookup] through the references returns what [Lookup] on the bytes
    returns. *)
Theorem BuildRef_agrees fuel T keys h rt h' :
  BuildRef fuel T keys h = Done (rt, h') →
  ∃ ks, mapRes (bytesOf T h) keys = Done ks ∧
        Build fuel ks = Done (arrays rt) ∧
        contents h' rt = Done ks ∧
        view h' rt = Done (arrays rt) ∧
        ∀ s, LookupRef h' rt s = Lookup (arrays rt) s.
Proof.
  intros Hb. pose proof Hb as Hb'. revert Hb'. unfold BuildRef.
  intros (ks & Hks & (t & Ht & E)%bind_Done)%bind_Done.
  exists ks.
  assert (arrays rt = t ∧ contents h' rt = Done ks) as [Harr Hc].
  { destruct T.
    - destruct (BuildRef_string_owned _ _ _ _ _ Hb) as (Hc & _).
      simpl in Hks. apply mapRes_Done in Hks.
      assert (ks = keys) as ->.
      { clear -Hks. induction Hks as [|???? [= ->]]; [done|]. by f_equal. }
      destruct (poolOf TString keys [] h). by simplify_eq.
    - rewrite poolOf_bytes in E. simpl in E. by simplify_eq. }
  assert (view h' rt = Done t) as Hv.
  { unfold view. rewrite Hc, Harr. simpl. f_equal.
    destruct (Build_facts _ _ _ Ht) as (<- & _). by destruct t. }
  rewrite Harr. split_and!; [done..|]. intros s. unfold LookupRef. by rewrite Hv.
Qed.
End instances.

(** ** The further properties, on the tables above *)

Lemma nextPow2_returns_witness :
  5 ≤ 2 ^ 62 ∧
  ∃ p, nextPow2 5 = Done p ∧ leastPow2 5 p ∧ (5 ≤ 1 → p = 1) ∧ (1 ≤ 5 → p < 2 * 5).
Proof. split; [lia|]. apply (nextPow2_returns 5). lia. Defined.

Lemma nextPow2_overflow_witness :
  2 ^ 62 < 2 ^ 62 + 1 ∧
  nextPow2 (2 ^ 62 + 1) = Spin ∧ nextPow2_loop 70 1 (2 ^ 62 + 1) = Spin.
Proof. split; [lia|]. apply (nextPow2_overflow (2 ^ 62 + 1) 70). lia. Defined.

Lemma Build_repeated_key_spins_witness :
  ["x"; "x"] !! 0%nat = Some "x" ∧ ["x"; "x"] !! 1%nat = Some "x" ∧
  Build 3 ["x"; "x"] = Spin.
Proof.
  split; [reflexivity|]. split; [reflexivity|].
  apply (Build_repeated_key_spins 3 ["x"; "x"] 0 1 "x");
    [reflexivity | reflexivity | lia].
Defined.

Lemma Build_returns_on_distinct_keys_witness :
  Build 5 xyz = Done xyzTable ∧
  NoDup (keys xyzTable) ∧ len (keys xyzTable) ≤ 2 ^ 32.
Proof.
  split; [vm_compute; reflexivity|].
  apply (Build_returns_on_distinct_keys 5 xyz xyzTable). vm_compute. reflexivity.
Defined.

Lemma level0_entries_witness :
  Build 5 xyz = Done xyzTable ∧ level0 xyzTable !! 0%nat = Some 4 ∧
  0 ≤ 4 < 2 ^ 32 ∧
  ((∀ k, k ∈ xyz → bucketOf (level0Mask xyzTable) k ≠ Z.of_nat 0) → 4 = 0).
Proof.
  split; [vm_compute; reflexivity|]. split; [reflexivity|].
  apply (level0_entries 5 xyz xyzTable 0 4); [vm_compute; reflexivity|reflexivity].
Defined.

Lemma Lookup_decides_membership_witness :
  Build 5 xyz = Done xyzTable ∧
  (∀ c, Lookup xyzTable "w" = Done (c, true) ↔
        0 ≤ c ∧ xyz !! Z.to_nat c = Some "w") ∧
  ((∃ c, Lookup xyzTable "w" = Done (c, false)) ↔ xyz ≠ [] ∧ "w" ∉ xyz) ∧
  (Lookup xyzTable "w" = Panic ↔ xyz = []) ∧
  Lookup xyzTable "w" ≠ Spin.
Proof.
  split; [vm_compute; reflexivity|].
  apply (Lookup_decides_membership 5 xyz xyzTable "w"). vm_compute. reflexivity.
Defined.

Lemma buckets_split_positions_witness :
  Build 256 langs = Done langsTable ∧
  ∃ bs, bucketOrder langs = Done bs ∧ NoDup (n <$> bs).
Proof.
  split; [vm_compute; reflexivity|].
  destruct (buckets_split_positions 256 langs langsTable) as (bs & Hbs & Hnd & _);
    [vm_compute; reflexivity|].
  exists bs. exact (conj Hbs Hnd).
Defined.

Lemma bucket_sizes_fixed_witness :
  let bs1 := [mkBucket 0 [1; 3; 5; 7]; mkBucket 1 [0; 2; 4; 6]] in
  let bs2 := [mkBucket 1 [0; 2; 4; 6]; mkBucket 0 [1; 3; 5; 7]] in
  @bucketOrder toyMurmur insertionSorter langs = Done bs1 ∧
  @bucketOrder toyMurmur reverseSorter langs = Done bs2 ∧
  bs1 ≡ₚ bs2 ∧
  (λ b, len (vals b)) <$> bs1 = (λ b, len (vals b)) <$> bs2.
Proof.
  intros bs1 bs2.
  split; [vm_compute; reflexivity|]. split; [vm_compute; reflexivity|].
  apply (bucket_sizes_fixed toyMurmur insertionSorter reverseSorter langs bs1 bs2);
    vm_compute; reflexivity.
Defined.

Lemma level0_first_fit_witness :
  Build 5 xyz = Done xyzTable ∧
  ∃ bs, bucketOrder xyz = Done bs.
Proof.
  split; [vm_compute; reflexivity|].
  destruct (level0_first_fit 5 xyz xyzTable) as (bs & Hbs & _);
    [vm_compute; reflexivity|].
  exists bs. exact Hbs.
Defined.

Lemma Build_within_all_seeds_witness :
  Build 5 xyz = Done xyzTable ∧ Build (Z.to_nat (2 ^ 32)) xyz = Done xyzTable.
Proof.
  split; [vm_compute; reflexivity|].
  apply (Build_within_all_seeds 5 xyz xyzTable). vm_compute. reflexivity.
Defined.

Lemma BuildRef_bytes_shared_witness :
  let rt := mkRefTable [0%nat] (mkTable ["a"] [0] 0 [0] 0) in
  BuildRef 1 TBytes [0%nat] ["a"] = Done (rt, ["a"]) ∧
  keyRefs rt = [0%nat].
Proof.
  intros rt. split; [vm_compute; reflexivity|].
  apply (BuildRef_bytes_shared 1 [0%nat] ["a"] rt ["a"]). vm_compute. reflexivity.
Defined.

Lemma BuildRef_string_copies_witness :
  let rt := mkRefTable [1%nat] (mkTable ["a"] [0] 0 [0] 0) in
  BuildRef 1 TString ["a"] ["a"] = Done (rt, ["a"; "a"]) ∧
  ["a"; "a"] = ["a"] ++ ["a"].
Proof.
  intros rt. split; [vm_compute; reflexivity|].
  apply (BuildRef_string_copies 1 ["a"] ["a"] rt ["a"; "a"]). vm_compute.
  reflexivity.
Defined.

Lemma BuildRef_agrees_witness :
  let rt := mkRefTable [0%nat] (mkTable ["a"] [0] 0 [0] 0) in
  BuildRef 1 TBytes [0%nat] ["a"] = Done (rt, ["a"]) ∧
  ∃ ks, mapRes (bytesOf TBytes ["a"]) [0%nat] = Done ks ∧
        Build 1 ks = Done (arrays rt).
Proof.
  intros rt. split; [vm_compute; reflexivity|].
  destruct (BuildRef_agrees 1 TBytes [0%nat] ["a"] rt ["a"]) as (ks & Hks & Hb & _);
    [vm_compute; reflexivity|].
  exists ks. exact (conj Hks Hb).
Defined.

(** ** Masks and single keys *)

Section masks.
Context `{Murmur} `{Sorter}.

Lemma land_pow2_mask h p :
  (∃ k : nat, p = 2 ^ Z.of_nat k) → Z.land h (p - 1) = h mod p.
Proof.
  intros [k ->]. rewrite <- Z.land_ones by lia. f_equal.
  rewrite Z.ones_equiv. lia.
Qed.

(** X17. In a table that [Build] returned the two masks do the work of a
    remainder: the bucket of a key is its seed-0 hash modulo the length of
    [level0], and its slot under a seed is its hash modulo the length of
    [level1]. *)
Theorem masks_reduce_modulo_length fuel ks t seed k :
  Build fuel ks = Done t →
  bucketOf (level0Mask t) k = murmurHash 0 k `mod` len (level0 t) ∧
  slotOf (level1Mask t) seed k = murmurHash seed k `mod` len (level1 t).
Proof.
  intros Hb. destruct (Build_facts _ _ _ Hb)
    as (_ & _ & Hl0 & _ & Hl1 & (k0 & Hk0 & _) & (k1 & Hk1 & _) & _).
  unfold bucketOf, slotOf.
  replace (level0Mask t) with (len (level0 t) - 1) by lia.
  replace (level1Mask t) with (len (level1 t) - 1) by lia.
  split; apply land_pow2_mask; by eexists.
Qed.

(** X18. One key: whatever the key and the hash, [Build] returns after a
    single trial with index arrays of length 1, and [Lookup] on the table
    finds a query at index 0 exactly when it is that key. *)
Theorem Build_one_key fuel k s :
  Build (S fuel) [k] = Done (mkTable [k] [0] 0 [0] 0) ∧
  Lookup (mkTable [k] [0] 0 [0] 0) s = Done (0, String.eqb s k).
Proof. split; [apply Build_singleton | apply Lookup_singleton]. Qed.
End masks.

Lemma masks_reduce_modulo_length_witness :
  Build 5 xyz = Done xyzTable ∧
  bucketOf (level0Mask xyzTable) "y" = murmurHash 0 "y" `mod` len (level0 xyzTable) ∧
  slotOf (level1Mask xyzTable) 4 "y" = murmurHash 4 "y" `mod` len (level1 xyzTable).
Proof.
  split; [vm_compute; reflexivity|].
  apply (masks_reduce_modulo_length 5 xyz xyzTable 4 "y"). vm_compute. reflexivity.
Defined.

(** ** Where the entries of [level1] come from

    A trial writes [level1] before it knows whether it will be kept, and a
    trial given up takes back its marks in [occ] only.  The seeds tried for
    a bucket are 0, 1, ... up to the seed [level0] keeps for it: an entry of
    [level1] is the initial 0 or was written for a key under one of the
    seeds tried for that key's bucket. *)

Section tried_seeds.
Context `{Murmur} `{Sorter}.

(** Every entry of [l1] is the initial 0, or the index [i] of a key, at the
    slot of that key under a seed with [tried i seed]. *)
Definition level1_from (ks : list string) (mask : Z) (tried : Z → Z → Prop)
    (l1 : list Z) : Prop :=
  ∀ (m : nat) v, l1 !! m = Some v →
    v = 0 ∨ ∃ i k seed, idx_get ks i = Done k ∧ v = uint32 i ∧
      tried i seed ∧ slotOf mask seed k = Z.of_nat m.

Lemma place_from ks mask tried seed vs occ tmp l1 ok occ' l1' :
  place ks mask seed vs occ tmp l1 = Done (ok, occ', l1') →
  (∀ i, i ∈ vs → tried i seed) →
  level1_from ks mask tried l1 → level1_from ks mask tried l1'.
Proof.
  revert occ tmp l1. induction vs as [|i vs IH]; intros occ tmp l1 E Ht Hw;
    simpl in E.
  - by simplify_eq.
  - apply bind_Done in E as (k & Hk & E). fold (slotOf mask seed k) in E.
    apply bind_Done in E as (o & Ho & E). destruct o.
    + apply bind_Done in E as (occ1 & _ & E). by simplify_eq.
    + apply bind_Done in E as (occ1 & _ & E).
      apply bind_Done in E as (l1_1 & [Hr1 ->]%idx_set_Done & E).
      eapply IH; [exact E| |].
      * intros j Hj. apply Ht. by apply elem_of_cons; right.
      * intros m v Hv.
        destruct (decide (m = Z.to_nat (slotOf mask seed k))) as [->|Hne].
        -- rewrite list_lookup_insert_eq in Hv by (unfold len in Hr1; lia).
           simplify_eq. right. exists i, k, seed. split_and!; [done|done| |].
           ++ apply Ht. by apply elem_of_cons; left.
           ++ pose proof (slotOf_nonneg mask seed k). lia.
        -- rewrite list_lookup_insert_ne in Hv by done. by apply Hw.
Qed.

Lemma trySeed_from fuel ks mask tried seed0 vs occ l1 seed occ' l1' :
  trySeed fuel ks mask seed0 vs occ l1 = Done (seed, occ', l1') →
  0 ≤ seed0 < 2 ^ 32 →
  (∀ i (j : nat), i ∈ vs → (j < fuel)%nat →
     tried i (uint32 (seed0 + Z.of_nat j))) →
  level1_from ks mask tried l1 → level1_from ks mask tried l1'.
Proof.
  revert seed0 occ l1. induction fuel as [|fuel IH];
    intros seed0 occ l1 E Hs Ht Hw; simpl in E; [done|].
  apply bind_Done in E as ([[ok occ1] l1_1] & Hplace & E).
  assert (level1_from ks mask tried l1_1) as Hw1.
  { eapply place_from; [exact Hplace| |done].
    intros i Hi. specialize (Ht i O Hi).
    rewrite Z.add_0_r, uint32_small in Ht by done. apply Ht. lia. }
  destruct ok; [by simplify_eq|].
  eapply IH; [exact E|apply uint32_range| |done].
  intros i j Hi Hj. rewrite uint32_add_l.
  replace (seed0 + 1 + Z.of_nat j) with (seed0 + Z.of_nat (S j)) by lia.
  apply Ht; [done|lia].
Qed.

(** [l0'] is [level0] as the displacement loop leaves it: the trials for a
    bucket use the seeds from 0 to the one [l0'] holds for it. *)
Lemma displace_from fuel ks mask tried bs occ l0 l1 l0' l1' :
  displace fuel ks mask bs occ l0 l1 = Done (l0', l1') →
  NoDup (n <$> bs) →
  (∀ b i final seed, b ∈ bs → i ∈ vals b →
     idx_get l0' (n b) = Done final → 0 ≤ seed ≤ final → tried i seed) →
  level1_from ks mask tried l1 → level1_from ks mask tried l1'.
Proof.
  revert occ l0 l1. induction bs as [|b0 bs IH]; intros occ l0 l1 E Hnd Ht Hw;
    simpl in E.
  - by simplify_eq.
  - apply bind_Done in E as ([[seed0 occ1] l1_1] & Htry & E).
    apply bind_Done in E as (l0_1 & Hset & E).
    apply idx_set_Done in Hset as [Hr ->].
    rewrite fmap_cons in Hnd. apply NoDup_cons in Hnd as [Hfresh Hnd].
    pose proof (displace_spec _ _ _ _ _ _ _ _ _ E Hnd) as (_ & _ & Hl0keep & _).
    destruct (trySeed_first_fit _ _ _ _ _ _ _ _ _ _ Htry)
      as (m & _ & Hm & -> & _ & _ & Hrun); [lia|].
    assert (uint32 (0 + Z.of_nat m) = Z.of_nat m) as Hm'
      by (rewrite Z.add_0_l; apply uint32_small; lia).
    rewrite Hm' in E, Hrun, Hl0keep.
    assert (idx_get l0' (n b0) = Done (Z.of_nat m)) as Hseed0.
    { apply idx_get_Done. split; [lia|].
      rewrite Hl0keep by (by rewrite Z2Nat.id by lia).
      rewrite list_lookup_insert_eq by (unfold len in Hr; lia).
      by rewrite uint32_small by lia. }
    eapply IH; [exact E|done| |].
    + intros b i final seed Hb. apply Ht. by apply elem_of_cons; right.
    + eapply trySeed_from; [exact Hrun|lia| |done].
      intros i j Hi Hj. rewrite Z.add_0_l, uint32_small by lia.
      apply (Ht b0 i (Z.of_nat m)); [by apply elem_of_cons; left|done|done|lia].
Qed.

Lemma Build_level1_from fuel ks t :
  Build fuel ks = Done t →
  level1_from ks (level1Mask t)
    (λ i seed, ∃ k final, idx_get ks i = Done k ∧
       idx_get (level0 t) (bucketOf (level0Mask t) k) = Done final ∧
       0 ≤ seed ≤ final)
    (level1 t).
Proof.
  intros (a & b & sb & l0' & l1' & Ha & Hb & Ha1 & Hb1 & Hpart & Hdis & ->)%Build_inv.
  simpl. eapply displace_from; [exact Hdis|apply sortedBuckets_NoDup| |].
  - intros bk i final seed Hbk Hi Hfinal Hseed.
    destruct (sortedBuckets_in_range _ _ _ _ Hpart Ha1 Hbk) as [_ Hvals].
    destruct (Hvals i Hi) as (_ & k & Hk & Hbucket).
    exists k, final. by rewrite Hbucket.
  - intros m v [-> _]%lookup_replicate. by left.
Qed.

(** C5, as the code has it.  Keys at different positions occupy different
    [level1] slots.  An entry of [level1] is the initial 0 or the position of
    a key, at the slot that key has under one of the seeds tried for its
    bucket: the seeds from 0 to the one [level0] holds for the bucket,
    whether the trial was kept (the last) or given up (those before it).
    [Lookup] never reports a key outside the input as found; and a seed
    trial that fails hands back the occupancy array it started from. *)
Theorem level1_slots fuel ks t :
  Build fuel ks = Done t →
  (∀ (i j : nat) ki kj si sj,
     ks !! i = Some ki → ks !! j = Some kj → i ≠ j →
     idx_get (level0 t) (bucketOf (level0Mask t) ki) = Done si →
     idx_get (level0 t) (bucketOf (level0Mask t) kj) = Done sj →
     slotOf (level1Mask t) si ki ≠ slotOf (level1Mask t) sj kj) ∧
  (∀ (m : nat) v, level1 t !! m = Some v →
     v = 0 ∨ ∃ (i : nat) k seed final,
       ks !! i = Some k ∧ v = Z.of_nat i ∧
       idx_get (level0 t) (bucketOf (level0Mask t) k) = Done final ∧
       0 ≤ seed ≤ final ∧
       slotOf (level1Mask t) seed k = Z.of_nat m) ∧
  (∀ z c, z ∉ ks → Lookup t z ≠ Done (c, true)) ∧
  (∀ seed vs occ l1 occ' l1',
     place ks (level1Mask t) seed vs occ [] l1 = Done (false, occ', l1') →
     occ' = occ).
Proof.
  intros Hb. pose proof (Build_key_count _ _ _ Hb) as Hsize. split_and!.
  - intros i j ki kj si sj. by apply (Build_slots_injective fuel ks).
  - intros m v Hv.
    destruct (Build_level1_from _ _ _ Hb m v Hv)
      as [->|(i & k & seed & Hk & -> & (k' & final & Hk' & Hfinal & Hseed) & Hs)];
      [by left|].
    right. rewrite Hk in Hk'. simplify_eq.
    apply idx_get_Done in Hk as [Hi Hk].
    pose proof (lookup_lt_Some _ _ _ Hk) as Hlt. unfold len in Hsize.
    exists (Z.to_nat i), k', seed, final.
    split; [done|]. split; [|done]. rewrite uint32_small by lia. lia.
  - intros z c Hz Hl. apply Hz. by eapply Lookup_found_is_key.
  - intros seed vs occ l1 occ' l1' Hp. eapply place_fail; [exact Hp|].
    split_and!; [done| |done]. by intros z ?%elem_of_nil.
Qed.

End tried_seeds.

Lemma level1_slots_witness :
  Build 5 xyz = Done xyzTable ∧
  (∀ (m : nat) v, level1 xyzTable !! m = Some v →
     v = 0 ∨ ∃ (i : nat) k seed final,
       xyz !! i = Some k ∧ v = Z.of_nat i ∧
       idx_get (level0 xyzTable) (bucketOf (level0Mask xyzTable) k)
         = Done final ∧
       0 ≤ seed ≤ final ∧
       slotOf (level1Mask xyzTable) seed k = Z.of_nat m).
Proof.
  split; [vm_compute; reflexivity|].
  apply (level1_slots 5 xyz xyzTable). vm_compute. reflexivity.
Defined.

(** ** [sort.Sort], as Go's standard library has it

    [Build] orders the buckets with [sort.Sort] (line 41), which is not part
    of this repository.  Since Go 1.19 it is a pattern-defeating quicksort
    that reaches the slice through [Len], [Less] and [Swap] only.  The run
    of it on a slice of fewer than 50 elements whose partitions stay
    balanced is transcribed here, statement by statement; where a run
    leaves that part ([heapSort], [breakPatterns], [partitionEqual], the
    ninther of [choosePivot], [reverseRange], the shifting of
    [partialInsertionSort]) the transcription answers [Beyond].  Loops take
    as many rounds as their index range allows, so [Spin] is never the
    answer. *)

Module sort.

Inductive sortedHint := unknownHint | increasingHint | decreasingHint.

(** What a run leaves: the slice, or [Beyond] for a path not transcribed. *)
Inductive run := Sorted (data : list indexBucket) | Beyond.

Definition maxInsertion : Z := 12.
Definition shortestNinther : Z := 50.
Definition maxSwaps : Z := 4 * 3.
Definition shortestShifting : Z := 50.

(** [for j := i; j > a && data.Less(j, j-1); j-- { data.Swap(j, j-1) }]. *)
Fixpoint insertionSort_inner (rounds : nat) (data : list indexBucket)
    (a j : Z) : res (list indexBucket) :=
  match rounds with
  | O => Spin
  | S rounds' =>
      if a <? j then
        lt ← LessAt data j (j - 1);
        if lt : bool then
          data' ← Swap data j (j - 1);
          insertionSort_inner rounds' data' a (j - 1)
        else Done data
      else Done data
  end.

(** [for i := a + 1; i < b; i++]. *)
Fixpoint insertionSort_outer (rounds : nat) (data : list indexBucket)
    (a b i : Z) : res (list indexBucket) :=
  match rounds with
  | O => Spin
  | S rounds' =>
      if i <? b then
        data' ← insertionSort_inner (S (Z.to_nat (i - a))) data a i;
        insertionSort_outer rounds' data' a b (i + 1)
      else Done data
  end.

(** [func insertionSort(data Interface, a, b int)]. *)
Definition insertionSort (data : list indexBucket) (a b : Z)
    : res (list indexBucket) :=
  insertionSort_outer (S (Z.to_nat (b - a))) data a b (a + 1).

(** [func order2(data Interface, a, b int, swaps *int) (int, int)]. *)
Definition order2 (data : list indexBucket) (a b swaps : Z)
    : res (Z * Z * Z) :=
  lt ← LessAt data b a;
  if lt : bool then Done (b, a, swaps + 1) else Done (a, b, swaps).

(** [func median(data Interface, a, b, c int, swaps *int) int]. *)
Definition median (data : list indexBucket) (a b c swaps : Z) : res (Z * Z) :=
  '(a, b, swaps) ← order2 data a b swaps;
  '(b, c, swaps) ← order2 data b c swaps;
  '(a, b, swaps) ← order2 data a b swaps;
  Done (b, swaps).

(** [func choosePivot(data Interface, a, b int) (pivot int, hint sortedHint)]:
    a static pivot below 8 elements, the median of three below 50; [None]
    from 50 on, where the pivot comes from the ninther. *)
Definition choosePivot (data : list indexBucket) (a b : Z)
    : res (option (Z * sortedHint)) :=
  let l := b - a in
  let i := a + l `quot` 4 * 1 in
  let j := a + l `quot` 4 * 2 in
  let k := a + l `quot` 4 * 3 in
  found ←
    (if 8 <=? l then
       if shortestNinther <=? l then Done None
       else found ← median data i j k 0; Done (Some found)
     else Done (Some (j, 0)));
  match found with
  | None => Done None
  | Some (j, swaps) =>
      Done (Some (j, if swaps =? 0 then increasingHint
                     else if swaps =? maxSwaps then decreasingHint
                     else unknownHint))
  end.

(** [for i < b && !data.Less(i, i-1) { i++ }]. *)
Fixpoint partialInsertionSort_scan (rounds : nat) (data : list indexBucket)
    (b i : Z) : res Z :=
  match rounds with
  | O => Spin
  | S rounds' =>
      if i <? b then
        lt ← LessAt data i (i - 1);
        if lt : bool then Done i
        else partialInsertionSort_scan rounds' data b (i + 1)
      else Done i
  end.

(** [func partialInsertionSort(data Interface, a, b int) bool], up to the
    first round's [if b-a < shortestShifting { return false }]; [None] on a
    slice of 50 elements or more that is not in order, where elements are
    shifted. *)
Definition partialInsertionSort (data : list indexBucket) (a b : Z)
    : res (option bool) :=
  i ← partialInsertionSort_scan (S (Z.to_nat (b - a))) data b (a + 1);
  if i =? b then Done (Some true)
  else if b - a <? shortestShifting then Done (Some false)
  else Done None.

(** [for i <= j && data.Less(i, a) { i++ }]. *)
Fixpoint partition_up (rounds : nat) (data : list indexBucket) (a i j : Z)
    : res Z :=
  match rounds with
  | O => Spin
  | S rounds' =>
      if i <=? j then
        lt ← LessAt data i a;
        if lt : bool then partition_up rounds' data a (i + 1) j else Done i
      else Done i
  end.

(** [for i <= j && !data.Less(j, a) { j-- }]. *)
Fixpoint partition_down (rounds : nat) (data : list indexBucket) (a i j : Z)
    : res Z :=
  match rounds with
  | O => Spin
  | S rounds' =>
      if i <=? j then
        lt ← LessAt data j a;
        if lt : bool then Done j else partition_down rounds' data a i (j - 1)
      else Done j
  end.

(** The [for { ... }] loop of [partition]; it hands back the slice and [j]. *)
Fixpoint partition_loop (rounds : nat) (data : list indexBucket) (a i j : Z)
    : res (list indexBucket * Z) :=
  match rounds with
  | O => Spin
  | S rounds' =>
      i ← partition_up (S (Z.to_nat (j - i + 1))) data a i j;
      j ← partition_down (S (Z.to_nat (j - i + 1))) data a i j;
      if j <? i then Done (data, j)
      else
        data' ← Swap data i j;
        partition_loop rounds' data' a (i + 1) (j - 1)
  end.

(** [func partition(data Interface, a, b, pivot int)
       (newpivot int, alreadyPartitioned bool)]. *)
Definition partition (data : list indexBucket) (a b pivot : Z)
    : res (list indexBucket * Z * bool) :=
  data ← Swap data a pivot;
  let i := a + 1 in
  let j := b - 1 in
  i ← partition_up (S (Z.to_nat (j - i + 1))) data a i j;
  j ← partition_down (S (Z.to_nat (j - i + 1))) data a i j;
  if j <? i then
    data ← Swap data j a;
    Done (data, j, true)
  else
    data ← Swap data i j;
    '(data, j) ← partition_loop (S (Z.to_nat (b - a))) data a (i + 1) (j - 1);
    data ← Swap data j a;
    Done (data, j, false).

(** [func pdqsort(data Interface, a, b, limit int)]: one round of its
    [for] loop, the recursive call on the shorter side, and the rounds that
    follow on the longer side.  [wasBalanced] and [wasPartitioned] start as
    [true] in every call. *)
Fixpoint pdqsort (rounds : nat) (data : list indexBucket) (a b limit : Z)
    (wasBalanced wasPartitioned : bool) : res run :=
  match rounds with
  | O => Spin
  | S rounds' =>
      let length := b - a in
      if length <=? maxInsertion then
        data ← insertionSort data a b;
        Done (Sorted data)
      else if limit =? 0 then Done Beyond
      else if negb wasBalanced then Done Beyond
      else
        chosen ← choosePivot data a b;
        match chosen with
        | None | Some (_, decreasingHint) => Done Beyond
        | Some (pivot, hint) =>
            inOrder ←
              (if wasBalanced && wasPartitioned then
                 match hint with
                 | increasingHint => partialInsertionSort data a b
                 | _ => Done (Some false)
                 end
               else Done (Some false));
            match inOrder with
            | None => Done Beyond
            | Some true => Done (Sorted data)
            | Some false =>
                equalToLeft ←
                  (if 0 <? a then
                     lt ← LessAt data (a - 1) pivot;
                     Done (negb lt)
                   else Done false);
                if equalToLeft : bool then Done Beyond
                else
                  '(data, mid, alreadyPartitioned) ← partition data a b pivot;
                  let leftLen := mid - a in
                  let rightLen := b - mid in
                  let balanceThreshold := length `quot` 8 in
                  if leftLen <? rightLen then
                    left ← pdqsort rounds' data a mid limit true true;
                    match left with
                    | Beyond => Done Beyond
                    | Sorted data =>
                        pdqsort rounds' data (mid + 1) b limit
                          (balanceThreshold <=? leftLen) alreadyPartitioned
                    end
                  else
                    right ← pdqsort rounds' data (mid + 1) b limit true true;
                    match right with
                    | Beyond => Done Beyond
                    | Sorted data =>
                        pdqsort rounds' data a mid limit
                          (balanceThreshold <=? rightLen) alreadyPartitioned
                    end
            end
        end
  end.

(** [func Sort(data Interface)]; [bits.Len(uint(n))] is [Z.log2 n + 1]. *)
Definition Sort (data : list indexBucket) : res run :=
  let n := Len data in
  if n <=? 1 then Done (Sorted data)
  else
    let limit := Z.log2 n + 1 in
    pdqsort (S (Z.to_nat n)) data 0 n limit true true.

End sort.

#[local] Instance indexBucket_eq_dec : EqDecision indexBucket.
Proof. solve_decision. Defined.

#[local] Instance notLess_dec : RelDecision notLess.
Proof. intros a b. unfold notLess. apply _. Defined.

(** [sort.Sort] as a function on slices.  The answer of the transcription is
    taken where it is a rearrangement of the slice that [Less] finds in
    order; a stable insertion sort stands in anywhere else. *)
Definition goSort (s : list indexBucket) : list indexBucket :=
  match sort.Sort s with
  | Done (sort.Sorted s') =>
      if bool_decide (s' ≡ₚ s ∧ StronglySorted notLess s') then s'
      else insertionSort s
  | _ => insertionSort s
  end.

Lemma goSort_perm s : goSort s ≡ₚ s.
Proof.
  unfold goSort. destruct (sort.Sort s) as [[s'|]| |];
    try apply insertionSort_perm.
  case_bool_decide as Hs; [by destruct Hs | apply insertionSort_perm].
Qed.

Lemma goSort_sorted s : StronglySorted notLess (goSort s).
Proof.
  unfold goSort. destruct (sort.Sort s) as [[s'|]| |];
    try apply insertionSort_sorted.
  case_bool_decide as Hs; [by destruct Hs | apply insertionSort_sorted].
Qed.

Program Definition goSorter : Sorter := {| sort_Sort := goSort |}.
Next Obligation. apply goSort_perm. Qed.
Next Obligation.
  intros s i j a b Hij Ha Hb.
  exact (StronglySorted_lookup notLess _ i j a b (goSort_sorted s) Hij Ha Hb).
Qed.

(** Forty keys: at level 0 they fall into thirteen buckets, twelve of three
    keys and bucket 12 of four. *)
Definition langs40 : list string :=
  ["algol"; "arc"; "basic"; "chapel"; "coq"; "curry"; "elixir"; "elm";
   "euler"; "factor"; "fortran"; "go"; "groovy"; "icon"; "idris"; "k";
   "kotlin"; "lisp"; "logo"; "matlab"; "mercury"; "ml"; "modula"; "ocaml";
   "occam"; "pascal"; "php"; "pure"; "r"; "racket"; "rexx"; "ruby"; "scala";
   "self"; "simula"; "sql"; "squeak"; "turing"; "unicon"; "xl"].

(** The buckets of [langs40] as line 40 leaves them, by bucket index. *)
Definition langs40Buckets : list indexBucket :=
  [mkBucket 0 [1; 12; 17]; mkBucket 1 [11; 14; 27]; mkBucket 2 [6; 21; 23];
   mkBucket 3 [25; 37; 38]; mkBucket 4 [8; 10; 36]; mkBucket 5 [9; 20; 35];
   mkBucket 6 [7; 18; 33]; mkBucket 7 [5; 16; 39]; mkBucket 8 [3; 24; 29];
   mkBucket 9 [0; 19; 30]; mkBucket 10 [26; 28; 31]; mkBucket 11 [4; 32; 34];
   mkBucket 12 [2; 13; 15; 22]].

(** The same buckets as [sort.Sort] leaves them. *)
Definition langs40Sorted : list indexBucket :=
  [mkBucket 12 [2; 13; 15; 22]; mkBucket 6 [7; 18; 33]; mkBucket 2 [6; 21; 23];
   mkBucket 3 [25; 37; 38]; mkBucket 4 [8; 10; 36]; mkBucket 5 [9; 20; 35];
   mkBucket 0 [1; 12; 17]; mkBucket 7 [5; 16; 39]; mkBucket 8 [3; 24; 29];
   mkBucket 9 [0; 19; 30]; mkBucket 10 [26; 28; 31]; mkBucket 11 [4; 32; 34];
   mkBucket 1 [11; 14; 27]].

Definition langs40Table : Table :=
  mkTable langs40 [0; 2; 0; 0; 2; 2; 1; 0; 0; 2; 0; 0; 1; 0; 0; 0] 15
    [0; 2; 23; 38; 8; 0; 9; 39; 3; 33; 0; 34; 0; 27; 0; 0; 1; 14; 21; 37; 0;
     8; 0; 5; 24; 11; 28; 32; 2; 18; 0; 0; 12; 11; 0; 0; 36; 15; 0; 22; 19;
     0; 26; 4; 10; 0; 9; 7; 17; 35; 6; 25; 13; 9; 7; 16; 29; 0; 31; 0; 13;
     20; 0; 30] 63.

(** On the two buckets of [langs], of four keys each, [sort.Sort] is an
    insertion sort and moves nothing. *)
Example Sort_langs :
  sort.Sort [mkBucket 0 [1; 3; 5; 7]; mkBucket 1 [0; 2; 4; 6]]
  = Done (sort.Sorted [mkBucket 0 [1; 3; 5; 7]; mkBucket 1 [0; 2; 4; 6]]) ∧
  @bucketOrder toyMurmur goSorter langs
  = Done [mkBucket 0 [1; 3; 5; 7]; mkBucket 1 [0; 2; 4; 6]].
Proof. vm_compute. done. Qed.

(** On thirteen buckets the first step of [sort.Sort] is a partition around
    the element at index 6: [Swap(0, 6)] puts bucket 6 in front, the scan
    exchanges bucket 1 with bucket 12, the one bucket that is [Less] than
    the pivot, and [Swap(1, 0)] puts the pivot behind it.  Both sides are
    then insertion-sorted and stay as they are. *)
Example partition_langs40 :
  sort.choosePivot langs40Buckets 0 13 = Done (Some (6, sort.increasingHint)) ∧
  sort.partialInsertionSort langs40Buckets 0 13 = Done (Some false) ∧
  sort.partition langs40Buckets 0 13 6 = Done (langs40Sorted, 1, false).
Proof. vm_compute. done. Qed.

(** C7 fails on the code as stated.  The forty keys of [langs40] give
    thirteen buckets; [sort.Sort] leaves bucket 6 before bucket 2, both of
    three keys, and the solver takes them in that order; [Build] returns
    the table. *)
Lemma tied_buckets_out_of_order :
  ∃ sb a b,
    @partition toyMurmur 15 0 langs40 (replicate 16 []) [] = Done (sb, langs40) ∧
    collect 0 sb [] = langs40Buckets ∧
    sort.Sort langs40Buckets = Done (sort.Sorted langs40Sorted) ∧
    @bucketOrder toyMurmur goSorter langs40 = Done langs40Sorted ∧
    langs40Sorted !! 1%nat = Some a ∧ langs40Sorted !! 2%nat = Some b ∧
    len (vals a) = len (vals b) ∧ n b < n a ∧
    @Build toyMurmur goSorter 3 langs40 = Done langs40Table.
Proof.
  exists [[1; 12; 17]; [11; 14; 27]; [6; 21; 23]; [25; 37; 38]; [8; 10; 36];
          [9; 20; 35]; [7; 18; 33]; [5; 16; 39]; [3; 24; 29]; [0; 19; 30];
          [26; 28; 31]; [4; 32; 34]; [2; 13; 15; 22]; []; []; []],
    (mkBucket 6 [7; 18; 33]), (mkBucket 2 [6; 21; 23]).
  split_and!; vm_compute; reflexivity.
Qed.
